(** * Word separation of [crafted-gamz-lite] ([src/g/a.py])

    A shallow embedding of [separate_words_enhanced] and of the pieces it is
    made of: the four look-around substitutions that cut a title at case and
    letter/digit transitions, the clean-up that turns the result into parts,
    and the greedy longest-match scan of each part against the word list.

    Strings are lists of characters; a character is a code point below 256
    (Rocq's [ascii]).  On that range the character classes of the regular
    expressions, [str.lower] and the white space of [str.strip] are the ones
    defined below.  The word list is a finite set of strings. *)

From Stdlib Require Import Ascii String NArith.
From stdpp Require Import base decidable option list strings gmap.

Local Open Scope char_scope.
Local Open Scope list_scope.

(** ** Strings *)

Abbreviation str := (list ascii).

(** A literal, written as a Rocq string. *)
Definition py (s : string) : str := list_ascii_of_string s.

Definition in_range (lo hi : N) (c : ascii) : bool :=
  let n := N_of_ascii c in (lo <=? n)%N && (n <=? hi)%N.

(** [[a-z]], [[A-Z]], [[a-zA-Z]] and [\d]. *)
Definition is_lower (c : ascii) : bool := in_range 97 122 c.
Definition is_upper (c : ascii) : bool := in_range 65 90 c.
Definition is_alpha (c : ascii) : bool := is_lower c || is_upper c.
Definition is_digit (c : ascii) : bool := in_range 48 57 c.

(** The characters [str.strip()] removes: tab to carriage return, the four
    separators 28..31, the space, NEL and the no-break space. *)
Definition is_space (c : ascii) : bool :=
  in_range 9 13 c || in_range 28 32 c
  || (N_of_ascii c =? 133)%N || (N_of_ascii c =? 160)%N.

(** [str.lower()], one character at a time: the letters [A-Z] and the
    upper-case letters of the Latin-1 block (all of 192..222 but the
    multiplication sign 215) move up by 32.  Below 256 [str.lower()] does
    work on every character by itself and keeps the length; beyond it does
    not (a capital sigma is folded by its place in the word), and nothing
    here speaks of such strings. *)
Definition lower_char (c : ascii) : ascii :=
  if is_upper c || (in_range 192 222 c && negb (N_of_ascii c =? 215)%N)
  then ascii_of_N (N_of_ascii c + 32)
  else c.

Definition lower (s : str) : str := map lower_char s.

(** [s[a:b]] for [0 <= a], and [s[a:]]. *)
Definition slice (s : str) (a b : nat) : str := take (b - a) (drop a s).

(** ** Step 1: cutting at case and digit transitions *)

(** [re.sub(r'(?<=B)(?=A)', ' ', text)]: the pattern is empty, so it matches
    at every position whose previous character satisfies the look-behind and
    whose following characters satisfy the look-ahead; every match is taken
    on the text as it was given, and a space is put there. [prev] is the
    character before the position, absent at the start of the text. *)
Fixpoint sub_lookaround (behind : ascii → bool) (ahead : str → bool)
    (prev : option ascii) (text : str) : str :=
  match text with
  | [] => []
  | c :: rest =>
      let here := match prev with
                  | Some p => behind p && ahead text
                  | None => false
                  end in
      (if here then [" "] else []) ++ c :: sub_lookaround behind ahead (Some c) rest
  end.

Definition ahead1 (cls : ascii → bool) (s : str) : bool :=
  match s with c :: _ => cls c | [] => false end.

Definition ahead2 (cls1 cls2 : ascii → bool) (s : str) : bool :=
  match s with c1 :: c2 :: _ => cls1 c1 && cls2 c2 | _ => false end.

(** Line 61, [(?<=[a-z])(?=[A-Z])]: myVar -> my Var *)
Definition sub_lower_upper (text : str) : str :=
  sub_lookaround is_lower (ahead1 is_upper) None text.

(** Line 62, [(?<=[A-Z])(?=[A-Z][a-z])]: HTMLParser -> HTML Parser *)
Definition sub_acronym (text : str) : str :=
  sub_lookaround is_upper (ahead2 is_upper is_lower) None text.

(** Line 63, [(?<=[a-zA-Z])(?=\d)]: version1 -> version 1 *)
Definition sub_alpha_digit (text : str) : str :=
  sub_lookaround is_alpha (ahead1 is_digit) None text.

(** Line 64, [(?<=\d)(?=[a-zA-Z])]: 1stPlace -> 1 st Place *)
Definition sub_digit_alpha (text : str) : str :=
  sub_lookaround is_digit (ahead1 is_alpha) None text.

Definition temp_processed (text : str) : str :=
  sub_digit_alpha (sub_alpha_digit (sub_acronym (sub_lower_upper text))).

(** [re.sub(r' +', ' ', s)]: of every run of spaces the last one stays. *)
Fixpoint collapse_spaces (s : str) : str :=
  match s with
  | [] => []
  | c :: rest =>
      match rest with
      | c' :: _ =>
          if bool_decide (c = " ") && bool_decide (c' = " ")
          then collapse_spaces rest
          else c :: collapse_spaces rest
      | [] => [c]
      end
  end.

(** [str.strip()] *)
Fixpoint lstrip (s : str) : str :=
  match s with
  | c :: rest => if is_space c then lstrip rest else s
  | [] => []
  end.

Definition rstrip (s : str) : str := reverse (lstrip (reverse s)).

Definition strip (s : str) : str := rstrip (lstrip s).

(** [s.split(' ')]: one more piece than there are spaces. *)
Fixpoint split_space (s : str) : list str :=
  match s with
  | [] => [[]]
  | c :: rest =>
      if bool_decide (c = " ") then [] :: split_space rest
      else match split_space rest with
           | w :: ws => (c :: w) :: ws
           | [] => [[c]]
           end
  end.

(** [' '.join(parts)] *)
Fixpoint join_space (parts : list str) : str :=
  match parts with
  | [] => []
  | [w] => w
  | w :: ws => w ++ " " :: join_space ws
  end.

(** Line 67. *)
Definition initial_parts (text : str) : list str :=
  split_space (strip (collapse_spaces (temp_processed text))).

(** ** Step 2: the word list *)

Section Wordlist.

Variable word_list_set : gset str.

Definition known (s : str) : bool := bool_decide (lower s ∈ word_list_set).

(** The state of the search for the longest word at one position;
    [None] is the [-1] that [best_match_end] starts from. *)
Record best_match := BestMatch {
  best_match_end : option nat;
  best_match_word : str
}.

(** One round of [for i in range(current_pos, len(part))], lines 90-96.
    The empty [best_match_word] and the absent [best_match_end] of lines
    86-87 are what [longest_match] starts the rounds from. *)
Definition probe (part : str) (current_pos : nat) (best : best_match) (i : nat)
    : best_match :=
  let sub := slice part current_pos (i + 1) in
  if known sub then
    if bool_decide (length (best_match_word best) < length sub)
    then BestMatch (Some (i + 1)) sub
    else best
  else best.

Definition longest_match (part : str) (current_pos : nat) : best_match :=
  foldl (probe part current_pos) (BestMatch None [])
    (seq current_pos (length part - current_pos)).

Record scan_state := ScanState {
  current_pos : nat;
  segmented_sub_parts : list str
}.

(** What one round of the [while] loop ends in: the next test of the
    condition, or the [break] of line 107. *)
Inductive flow :=
| Next (st : scan_state)
| Break (st : scan_state).

Definition while_body (part : str) (st : scan_state) : flow :=
  let best := longest_match part (current_pos st) in
  match best_match_end best with
  | Some e =>
      Next (ScanState e (segmented_sub_parts st ++ [best_match_word best]))
  | None =>
      Break (ScanState (current_pos st)
               (segmented_sub_parts st ++ [drop (current_pos st) part]))
  end.

(** [while current_pos < len(part)], lines 85-107, for at most [fuel]
    rounds; [None] when the rounds are used up before the loop is left. *)
Fixpoint while_loop (fuel : nat) (part : str) (st : scan_state)
    : option (list str) :=
  if bool_decide (current_pos st < length part) then
    match fuel with
    | 0 => None
    | S fuel' =>
        match while_body part st with
        | Next st' => while_loop fuel' part st'
        | Break st' => Some (segmented_sub_parts st')
        end
    end
  else Some (segmented_sub_parts st).

(** The scan of one part, from position 0 with nothing found (lines 83-84);
    a round moves the cursor by one character at least, so the rounds given
    are as many as the part has characters. *)
Definition scan (part : str) : option (list str) :=
  while_loop (length part) part (ScanState 0 []).

(** What one non-empty part adds to [final_parts], lines 78-115: itself
    when it is a known word, the pieces of the scan when they are more than
    one, itself otherwise. *)
Definition segment (part : str) : option (list str) :=
  if known part then Some [part]
  else
    subs ← scan part;
    if negb (bool_decide (subs = [])) && bool_decide (1 < length subs)
    then Some subs
    else Some [part].

(** [for part in initial_parts], lines 72-115; an empty part is passed
    over (lines 73-74). *)
Fixpoint for_parts (parts : list str) (final_parts : list str)
    : option (list str) :=
  match parts with
  | [] => Some final_parts
  | part :: rest =>
      if bool_decide (part = []) then for_parts rest final_parts
      else
        segs ← segment part;
        for_parts rest (final_parts ++ segs)
  end.

(** Lines 56-57 and 118 around the two steps. *)
Definition separate_words_enhanced (text : str) : option str :=
  if bool_decide (text = []) then Some []
  else
    final_parts ← for_parts (initial_parts text) [];
    Some (strip (join_space final_parts)).

End Wordlist.

(** The word list of a few words. *)
Definition words (l : list string) : gset str := list_to_set (py <$> l).

(** ** What the claims speak of *)

(** Taking the space separators out of a string. *)
Definition remove_spaces (s : str) : str := filter (λ c, c ≠ " ") s.

(** Two spaces in a row somewhere in the string. *)
Fixpoint double_space (s : str) : bool :=
  match s with
  | c :: rest =>
      match rest with
      | c' :: _ =>
          (bool_decide (c = " ") && bool_decide (c' = " ")) || double_space rest
      | [] => false
      end
  | [] => false
  end.

(** The boundary splitter on its own: the parts of step 1 that are not
    empty, which are the ones the loop of step 2 takes up. *)
Definition split_boundaries (text : str) : list str :=
  filter (λ part, part ≠ []) (initial_parts text).

(** No white space in front. *)
Definition head_ok (s : str) : bool :=
  match s with c :: _ => negb (is_space c) | [] => true end.

(** A word as the loop of step 2 leaves it in [final_parts]: not empty,
    no space in it. *)
Definition solid (w : str) : Prop := w ≠ [] ∧ " " ∉ w.

(** The cleaned-up text of step 1 and its parts. *)
Definition cleaned (text : str) : str :=
  strip (collapse_spaces (temp_processed text)).

(** ** What the scan keeps and leaves *)

Section Invariants.

Context (kb : gset str).

(** What [best] holds once the ends up to [hi] have been tried from
    [pos]: the longest known word among them, or nothing. *)
Definition longest_upto (part : str) (pos hi : nat) (best : best_match) : Prop :=
  match best_match_end best with
  | Some e =>
      pos < e ≤ hi ∧ best_match_word best = slice part pos e ∧
      known kb (slice part pos e) = true ∧
      ∀ e', e < e' ≤ hi → known kb (slice part pos e') = false
  | None =>
      best_match_word best = [] ∧
      ∀ e', pos < e' ≤ hi → known kb (slice part pos e') = false
  end.

(** What holds of the state at the head of every round. *)
Definition scan_inv (part : str) (st : scan_state) : Prop :=
  current_pos st ≤ length part ∧
  concat (segmented_sub_parts st) = take (current_pos st) part ∧
  Forall (λ w, known kb w = true ∧ w ≠ []) (segmented_sub_parts st).

(** What the loop leaves: the part cut into known words, with at most one
    more piece behind them, none of them empty. *)
Definition scan_result (part : str) (subs : list str) : Prop :=
  concat subs = part ∧
  ∃ ws tl, subs = ws ++ tl ∧ Forall (λ w, known kb w = true ∧ w ≠ []) ws ∧
           length tl ≤ 1 ∧ Forall (λ w, w ≠ []) tl.

(** Every piece but the last is a word of the list. *)
Definition known_but_last (subs : list str) : Prop :=
  ∀ i w, S i < length subs → subs !! i = Some w → lower w ∈ kb.

(** No piece of [t] that starts at [a] and ends at [b] is a word of the list. *)
Definition no_known_substring (t : str) : Prop :=
  ∀ a b, a < b ≤ length t → lower (slice t a b) ∉ kb.

(** The claim as the specification words it: the output with its spaces
    taken out is the input. *)
Definition lossless (s : str) : Prop :=
  ∃ out, separate_words_enhanced kb s = Some out ∧ remove_spaces out = s.

End Invariants.

(** ** Further notions: where a pattern matches *)

(** Some position of [text] is matched by the look-around pattern of
    [sub_lookaround]; [prev] is the character before the text. *)
Fixpoint fires (behind : ascii → bool) (ahead : str → bool)
    (prev : option ascii) (text : str) : bool :=
  match text with
  | [] => false
  | c :: rest =>
      match prev with
      | Some p => behind p && ahead text
      | None => false
      end
      || fires behind ahead (Some c) rest
  end.

(** [t] is [s] with spaces put in. *)
Inductive spaced : str → str → Prop :=
| spaced_nil : spaced [] []
| spaced_keep c s t : spaced s t → spaced (c :: s) (c :: t)
| spaced_put s t : spaced s t → spaced s (" " :: t).

(** What the four patterns of step 1 have in common: a space satisfies
    neither side, and the look-ahead reads two characters at most, a space
    after the first being as good as the end of the text. *)
Class SpaceBlind (behind : ascii → bool) (ahead : str → bool) : Prop := {
  behind_space : behind " " = false;
  ahead_space s : ahead (" " :: s) = false;
  ahead_head c s t : head s = head t → ahead (c :: s) = ahead (c :: t);
  ahead_before_space c s : ahead (c :: " " :: s) = ahead [c];
  ahead_more c s : ahead [c] = true → ahead (c :: s) = true
}.

(** No pattern of step 1 matches anywhere in the text. *)
Definition no_boundary (text : str) : Prop :=
  fires is_lower (ahead1 is_upper) None text = false ∧
  fires is_upper (ahead2 is_upper is_lower) None text = false ∧
  fires is_alpha (ahead1 is_digit) None text = false ∧
  fires is_digit (ahead1 is_alpha) None text = false.

(** No piece of [r] from its start on is a word of the list. *)
Definition no_known_prefix (kb : gset str) (r : str) : Prop :=
  ∀ e, 0 < e ≤ length r → lower (slice r 0 e) ∉ kb.

(** A word that the loop of step 2 takes as it is. *)
Definition settled (kb : gset str) (w : str) : Prop :=
  w ≠ [] ∧ segment kb w = Some [w].

(** The search state and the scan state with their pieces case-folded. *)
Definition lower_best (best : best_match) : best_match :=
  BestMatch (best_match_end best) (lower (best_match_word best)).

Definition lower_state (st : scan_state) : scan_state :=
  ScanState (current_pos st) (map lower (segmented_sub_parts st)).

Definition lower_flow (f : flow) : flow :=
  match f with
  | Next st => Next (lower_state st)
  | Break st => Break (lower_state st)
  end.

(** ** The word list loader (lines 13-48) *)

(** The line boundaries of [str.splitlines()] below 256: line feed to
    carriage return, the separators 28..30 and NEL; a carriage return with
    a line feed behind it is one boundary. *)
Definition is_linebreak (c : ascii) : bool :=
  in_range 10 13 c || in_range 28 30 c || (N_of_ascii c =? 133)%N.

(** [text.splitlines()]; [cur] is the line read so far.  A last line that
    is empty is not given. *)
Fixpoint splitlines_from (cur : str) (text : str) : list str :=
  match text with
  | [] => if bool_decide (cur = []) then [] else [cur]
  | c :: rest =>
      if is_linebreak c then
        cur ::
          match rest with
          | c' :: rest' =>
              if bool_decide (c = "013") && bool_decide (c' = "010")
              then splitlines_from [] rest'
              else splitlines_from [] rest
          | [] => splitlines_from [] rest
          end
      else splitlines_from (cur ++ [c]) rest
  end.

Definition splitlines (text : str) : list str := splitlines_from [] text.

(** Lines 19-29. *)
Definition fallback_wordlist : gset str :=
  words [ "backyard"; "baseball"; "soccer"; "bacon"; "maydie"; "another"; "game";
          "html"; "parser"; "first"; "the"; "word"; "just"; "a"; "and"; "is";
          "it"; "in"; "on"; "for"; "of"; "to"; "with"; "at"; "by"; "from"; "up";
          "down"; "out"; "off"; "over"; "under"; "new"; "old"; "big"; "small";
          "good"; "bad"; "great"; "best"; "all"; "any"; "some"; "no"; "my";
          "your"; "his"; "her"; "its"; "our"; "their"; "this"; "that"; "these";
          "those"; "can"; "will"; "would"; "should"; "could"; "have"; "has";
          "had"; "do"; "does"; "did"; "am"; "are"; "is"; "was"; "were"; "be";
          "been"; "being"; "man"; "super"; "returns"; "spider"; "homecoming"
        ]%string.

(** What lines 33-34 and the reading of [response.text] end in: the text of
    the body, an exception of [requests], or another exception. *)
Inductive fetched :=
| Body (text : str)
| RequestException
| OtherException.

(** Lines 31-48, the messages left out: the set of line 37 when the body
    came, the built-in list after either exception. *)
Definition load_online_wordlist (response : fetched) : gset str :=
  match response with
  | Body text =>
      list_to_set
        (map (λ word, lower (strip word))
           (filter (λ word, strip word ≠ []) (splitlines text)))
  | RequestException => fallback_wordlist
  | OtherException => fallback_wordlist
  end.

(** A word as the loader stores it: not empty, no white space at its ends,
    its own case-folded form. *)
Definition clean_word (w : str) : Prop := w ≠ [] ∧ strip w = w ∧ lower w = w.

(** ** The title of an item (lines 146-151) *)

(** [c.upper()] for one character below 256, as code points: the result
    can leave the range (the micro sign, y with diaeresis) or be two
    characters (sharp s).  Characters from 256 on are not covered: some of
    them (the long s, the dotless i) have an upper-case form below 256. *)
Definition upper_char (c : ascii) : list N :=
  let n := N_of_ascii c in
  if is_lower c || (in_range 224 254 c && negb (n =? 247)%N) then [(n - 32)%N]
  else if (n =? 181)%N then [924%N]
  else if (n =? 223)%N then [83%N; 83%N]
  else if (n =? 255)%N then [376%N]
  else [n].

Definition code_points (s : str) : list N := map N_of_ascii s.

(** Lines 148-151: [separated_title[0].upper() + separated_title[1:]], or
    the empty title. *)
Definition capitalized (separated_title : str) : list N :=
  match separated_title with
  | [] => []
  | c :: rest => upper_char c ++ code_points rest
  end.

(** Lines 146-151 for a title that is a string. *)
Definition processed_title (kb : gset str) (title_text : str) : option (list N) :=
  capitalized <$> separate_words_enhanced kb title_text.

(** White space satisfies neither side of a pattern of step 1, and behind
    the first character read ahead it is as good as the end of the text. *)
Class WhiteBlind (behind : ascii → bool) (ahead : str → bool) : Prop := {
  behind_white c : is_space c = true → behind c = false;
  ahead_white c s : is_space c = true → ahead (c :: s) = false;
  ahead_before_white c d s : is_space d = true → ahead (c :: d :: s) = ahead [c]
}.

(** All of [s] is white space. *)
Definition blank (s : str) : Prop := Forall (λ c, is_space c = true) s.

(** [w] stands in [s] as a contiguous piece. *)
Definition piece_of (w s : str) : Prop := ∃ a b, s = a ++ w ++ b.

(** ** The examples of the specification *)

Example split_boundaries_example :
  split_boundaries (py "HTMLParserGame2000")
  = [py "HTML"; py "Parser"; py "Game"; py "2000"].
Proof. reflexivity. Qed.

Example separate_example :
  separate_words_enhanced (words ["html"; "parser"; "game"]%string)
    (py "HTMLParserGame2000")
  = Some (py "HTML Parser Game 2000").
Proof. reflexivity. Qed.

Example first_place_example :
  temp_processed (py "1stPlace") = py "1 st Place" ∧
  temp_processed (py "version1") = py "version 1" ∧
  temp_processed (py "myVar") = py "my Var".
Proof. by split_and!. Qed.

(** * Proofs *)

(** A decidable fact about given strings and a given word list, settled by
    evaluating its decision procedure. *)
Ltac by_evaluation := apply (bool_decide_unpack _); vm_compute; exact I.

(** ** Spaces taken out *)

Lemma remove_spaces_cons c s :
  remove_spaces (c :: s) = if decide (c ≠ " ") then c :: remove_spaces s else remove_spaces s.
Proof. reflexivity. Qed.

Lemma remove_spaces_space s : remove_spaces (" " :: s) = remove_spaces s.
Proof. reflexivity. Qed.

Lemma remove_spaces_app s t :
  remove_spaces (s ++ t) = remove_spaces s ++ remove_spaces t.
Proof. apply filter_app. Qed.

Lemma remove_spaces_idemp s : remove_spaces (remove_spaces s) = remove_spaces s.
Proof.
  induction s as [|c s IH]; [done|].
  rewrite remove_spaces_cons. destruct (decide (c ≠ " ")) as [Hc|Hc]; [|done].
  rewrite remove_spaces_cons, decide_True by done. by rewrite IH.
Qed.

Lemma remove_spaces_id s : " " ∉ s → remove_spaces s = s.
Proof.
  induction s as [|c s IH]; [done|].
  rewrite not_elem_of_cons. intros [Hc Hs].
  rewrite remove_spaces_cons, decide_True by done. by rewrite IH.
Qed.

Lemma remove_spaces_sub_lookaround behind ahead prev text :
  remove_spaces (sub_lookaround behind ahead prev text) = remove_spaces text.
Proof.
  revert prev. induction text as [|c rest IH]; intros prev; [done|].
  cbn [sub_lookaround]. rewrite remove_spaces_app.
  assert (remove_spaces (c :: sub_lookaround behind ahead (Some c) rest)
          = remove_spaces (c :: rest)) as ->.
  { rewrite !remove_spaces_cons, IH. done. }
  by destruct (match prev with Some p => _ | None => _ end).
Qed.

Lemma remove_spaces_temp_processed text :
  remove_spaces (temp_processed text) = remove_spaces text.
Proof.
  unfold temp_processed, sub_digit_alpha, sub_alpha_digit, sub_acronym,
    sub_lower_upper.
  by rewrite !remove_spaces_sub_lookaround.
Qed.

Lemma collapse_spaces_cons c c' s :
  collapse_spaces (c :: c' :: s) =
    if bool_decide (c = " ") && bool_decide (c' = " ")
    then collapse_spaces (c' :: s)
    else c :: collapse_spaces (c' :: s).
Proof. reflexivity. Qed.

Lemma remove_spaces_collapse s :
  remove_spaces (collapse_spaces s) = remove_spaces s.
Proof.
  induction s as [|c [|c' s] IH]; [done..|].
  rewrite collapse_spaces_cons.
  destruct (bool_decide_reflect (c = " ")) as [->|Hc]; cbn [andb].
  - destruct (bool_decide (c' = " ")); by rewrite ?remove_spaces_space, IH.
  - by rewrite !(remove_spaces_cons c), IH.
Qed.

(** ** Stripping *)

Lemma lstrip_suffix s : ∃ a, s = a ++ lstrip s.
Proof.
  induction s as [|c s [a IH]]; [by exists []|].
  cbn [lstrip]. destruct (is_space c).
  - exists (c :: a). cbn. by rewrite <-IH.
  - by exists [].
Qed.

Lemma head_ok_lstrip s : head_ok (lstrip s) = true.
Proof.
  induction s as [|c s IH]; [done|].
  cbn [lstrip]. destruct (is_space c) eqn:Hc; [done|].
  cbn. by rewrite Hc.
Qed.

Lemma lstrip_head_ok s : head_ok s = true → lstrip s = s.
Proof. destruct s as [|c s]; [done|]. cbn. by destruct (is_space c). Qed.

Lemma head_ok_iff s : head_ok s = true ↔ lstrip s = s.
Proof.
  split; [apply lstrip_head_ok|]. intros <-. apply head_ok_lstrip.
Qed.

Lemma lstrip_idemp s : lstrip (lstrip s) = lstrip s.
Proof. apply lstrip_head_ok, head_ok_lstrip. Qed.

Lemma lstrip_snoc s c : is_space c = false → lstrip (s ++ [c]) = lstrip s ++ [c].
Proof.
  intros Hc. induction s as [|d s IH]; cbn.
  - by rewrite Hc.
  - by destruct (is_space d).
Qed.

Lemma rstrip_cons_head_ok c s :
  is_space c = false → rstrip (c :: s) = c :: rstrip s.
Proof.
  intros Hc. unfold rstrip.
  by rewrite reverse_cons, lstrip_snoc, reverse_snoc.
Qed.

Lemma head_ok_rstrip s : head_ok s = true → head_ok (rstrip s) = true.
Proof.
  destruct s as [|c s]; [done|]. cbn [head_ok]. intros Hc%negb_true_iff.
  rewrite rstrip_cons_head_ok by done. cbn [head_ok]. by rewrite Hc.
Qed.

Lemma rstrip_idemp s : rstrip (rstrip s) = rstrip s.
Proof. unfold rstrip. by rewrite reverse_involutive, lstrip_idemp. Qed.

Lemma rstrip_prefix s : ∃ b, s = rstrip s ++ b.
Proof.
  unfold rstrip. destruct (lstrip_suffix (reverse s)) as [a Ha].
  exists (reverse a).
  rewrite <-reverse_app, <-Ha. by rewrite reverse_involutive.
Qed.

Lemma head_ok_strip s : head_ok (strip s) = true.
Proof. apply head_ok_rstrip, head_ok_lstrip. Qed.

Lemma lstrip_strip s : lstrip (strip s) = strip s.
Proof. apply lstrip_head_ok, head_ok_strip. Qed.

Lemma rstrip_strip s : rstrip (strip s) = strip s.
Proof. apply rstrip_idemp. Qed.

Lemma strip_idemp s : strip (strip s) = strip s.
Proof. unfold strip at 1. by rewrite lstrip_strip, rstrip_strip. Qed.

Lemma strip_infix s : ∃ a b, s = a ++ strip s ++ b.
Proof.
  destruct (lstrip_suffix s) as [a Ha].
  destruct (rstrip_prefix (lstrip s)) as [b Hb].
  exists a, b. unfold strip. by rewrite <-Hb.
Qed.

Lemma remove_spaces_lstrip s : remove_spaces (lstrip s) = lstrip (remove_spaces s).
Proof.
  induction s as [|c s IH]; [done|].
  rewrite remove_spaces_cons. cbn [lstrip].
  destruct (decide (c ≠ " ")) as [Hc|Hc].
  - cbn [lstrip]. destruct (is_space c); [done|].
    by rewrite remove_spaces_cons, decide_True.
  - apply dec_stable in Hc as ->. done.
Qed.

Lemma remove_spaces_reverse s :
  remove_spaces (reverse s) = reverse (remove_spaces s).
Proof. apply filter_reverse. Qed.

Lemma remove_spaces_rstrip s : remove_spaces (rstrip s) = rstrip (remove_spaces s).
Proof.
  unfold rstrip.
  by rewrite remove_spaces_reverse, remove_spaces_lstrip, remove_spaces_reverse.
Qed.

Lemma remove_spaces_strip s : remove_spaces (strip s) = strip (remove_spaces s).
Proof. unfold strip. by rewrite remove_spaces_rstrip, remove_spaces_lstrip. Qed.

(** ** Runs of spaces *)

Lemma double_space_cons c c' s :
  double_space (c :: c' :: s) =
    (bool_decide (c = " ") && bool_decide (c' = " ")) || double_space (c' :: s).
Proof. reflexivity. Qed.

Lemma double_space_spec s :
  double_space s = true ↔ ∃ a b, s = a ++ " " :: " " :: b.
Proof.
  split.
  - induction s as [|c s IH]; [done|]. destruct s as [|c' s]; [done|].
    rewrite double_space_cons, orb_true_iff, andb_true_iff, !bool_decide_eq_true.
    intros [[-> ->]|Hd].
    + by exists [], s.
    + destruct (IH Hd) as (a & b & Hab). exists (c :: a), b. by rewrite Hab.
  - intros (a & b & ->). induction a as [|c a IH]; [done|].
    cbn [app]. destruct a as [|c' a]; cbn [app] in *;
      rewrite double_space_cons, IH; apply orb_true_r.
Qed.

Lemma double_space_infix a s b :
  double_space (a ++ s ++ b) = false → double_space s = false.
Proof.
  intros Hd. destruct (double_space s) eqn:Hs; [|done].
  apply double_space_spec in Hs as (x & y & ->).
  rewrite <-Hd. symmetry. apply double_space_spec.
  exists (a ++ x), (y ++ b). by rewrite <-!app_assoc.
Qed.

Lemma double_space_strip s : double_space s = false → double_space (strip s) = false.
Proof.
  destruct (strip_infix s) as (a & b & Hs). rewrite Hs at 1.
  apply double_space_infix.
Qed.

Lemma head_collapse_spaces s : head (collapse_spaces s) = head s.
Proof.
  induction s as [|c s IH]; [done|]. destruct s as [|c' s]; [done|].
  rewrite collapse_spaces_cons.
  destruct (bool_decide_reflect (c = " ")) as [->|Hc]; [|done].
  destruct (bool_decide_reflect (c' = " ")) as [->|Hc']; [|done].
  cbn [andb]. by rewrite IH.
Qed.

Lemma double_space_collapse s : double_space (collapse_spaces s) = false.
Proof.
  induction s as [|c s IH]; [done|]. destruct s as [|c' s]; [done|].
  rewrite collapse_spaces_cons.
  destruct (bool_decide (c = " ") && bool_decide (c' = " ")) eqn:Hcc; [done|].
  pose proof (head_collapse_spaces (c' :: s)) as Hh.
  destruct (collapse_spaces (c' :: s)) as [|d t]; [done|].
  injection Hh as ->. by rewrite double_space_cons, Hcc, IH.
Qed.

Lemma double_space_word w t :
  " " ∉ w → double_space t = false → double_space (w ++ t) = false.
Proof.
  intros Hw Ht. induction w as [|c w IH]; [done|].
  apply not_elem_of_cons in Hw as [Hc Hw]. specialize (IH Hw).
  cbn [app]. destruct (w ++ t) as [|d u]; [done|].
  by rewrite double_space_cons, IH, (bool_decide_eq_false_2 _ (not_eq_sym Hc)).
Qed.

Lemma head_join_space_solid ws :
  Forall solid ws → head (join_space ws) ≠ Some " ".
Proof.
  destruct 1 as [|w ws [Hne Hw] Hws]; [done|].
  destruct w as [|c w]; [done|]. apply not_elem_of_cons in Hw as [Hc _].
  destruct ws; cbn; congruence.
Qed.

Lemma double_space_join_space ws :
  Forall solid ws → double_space (join_space ws) = false.
Proof.
  induction 1 as [|w ws [Hne Hw] Hws IH]; [done|].
  destruct ws as [|w' ws].
  - cbn. rewrite <-(app_nil_r w). by apply double_space_word.
  - change (join_space (w :: w' :: ws)) with (w ++ " " :: join_space (w' :: ws)).
    apply double_space_word; [done|].
    pose proof (head_join_space_solid _ Hws) as Hh.
    destruct (join_space (w' :: ws)) as [|d t]; [done|].
    rewrite double_space_cons, IH.
    rewrite (bool_decide_eq_false_2 (d = " ")) by (cbn in Hh; congruence).
    by rewrite andb_false_r.
Qed.

(** ** Splitting and joining *)

Lemma split_space_cons c s :
  split_space (c :: s) =
    if bool_decide (c = " ") then [] :: split_space s
    else match split_space s with
         | w :: ws => (c :: w) :: ws
         | [] => [[c]]
         end.
Proof. reflexivity. Qed.

Lemma split_space_nonempty s : split_space s ≠ [].
Proof.
  destruct s as [|c s]; [done|]. rewrite split_space_cons.
  destruct (bool_decide (c = " ")); [done|]. by destruct (split_space s).
Qed.

Lemma join_space_cons w ws :
  ws ≠ [] → join_space (w :: ws) = w ++ " " :: join_space ws.
Proof. by destruct ws. Qed.

Lemma join_split_space s : join_space (split_space s) = s.
Proof.
  induction s as [|c s IH]; [done|]. rewrite split_space_cons.
  destruct (bool_decide_reflect (c = " ")) as [->|Hc].
  - rewrite join_space_cons by apply split_space_nonempty. by rewrite IH.
  - pose proof (split_space_nonempty s) as Hne.
    destruct (split_space s) as [|w ws]; [done|].
    rewrite <-IH. by destruct ws.
Qed.

Lemma concat_split_space s : concat (split_space s) = remove_spaces s.
Proof.
  induction s as [|c s IH]; [done|].
  rewrite split_space_cons, remove_spaces_cons.
  destruct (bool_decide_reflect (c = " ")) as [->|Hc].
  - by rewrite decide_False by (by intros []).
  - rewrite decide_True by done. rewrite <-IH.
    by destruct (split_space s).
Qed.

Lemma split_space_no_space s : Forall (λ w, " " ∉ w) (split_space s).
Proof.
  induction s as [|c s IH].
  - repeat constructor. apply not_elem_of_nil.
  - rewrite split_space_cons.
    destruct (bool_decide_reflect (c = " ")) as [->|Hc].
    + constructor; [apply not_elem_of_nil|done].
    + destruct (split_space s) as [|w ws].
      * repeat constructor. rewrite list_elem_of_singleton. congruence.
      * apply Forall_cons in IH as [Hw Hws]. constructor; [|done].
        rewrite not_elem_of_cons. split; [congruence|done].
Qed.

Lemma remove_spaces_join_space ws :
  remove_spaces (join_space ws) = remove_spaces (concat ws).
Proof.
  induction ws as [|w ws IH]; [done|]. destruct ws as [|w' ws].
  - cbn. by rewrite app_nil_r.
  - rewrite join_space_cons by done.
    change (concat (w :: w' :: ws)) with (w ++ concat (w' :: ws)).
    by rewrite !remove_spaces_app, remove_spaces_space, IH.
Qed.

Lemma head_ok_not_space s : head_ok s = true → head s ≠ Some " ".
Proof. destruct s as [|c s]; [done|]. cbn. intros Hc [= ->]. done. Qed.

Lemma rstrip_last s : rstrip s = s → last s ≠ Some " ".
Proof.
  intros Hs. rewrite <-head_reverse. apply head_ok_not_space, head_ok_iff.
  unfold rstrip in Hs. rewrite <-Hs at 2. by rewrite reverse_involutive.
Qed.

(** On a string with no run of spaces and no space at its end, the pieces
    after the first are not empty, and the first is empty only when the
    string starts with a space. *)
Lemma split_space_pieces s :
  double_space s = false → last s ≠ Some " " → s ≠ [] →
  ∃ w ws, split_space s = w :: ws ∧ Forall (λ p, p ≠ []) ws ∧
          (w = [] → head s = Some " ").
Proof.
  induction s as [|c s IH]; [done|]. intros Hd Hl _.
  destruct s as [|c' s].
  - cbn in Hl. rewrite split_space_cons.
    rewrite bool_decide_eq_false_2 by congruence.
    by exists [c], [].
  - rewrite double_space_cons in Hd. apply orb_false_iff in Hd as [Hcc Hd].
    destruct (IH Hd) as (w & ws & Hsp & Hws & Hw); [done..|].
    rewrite split_space_cons, Hsp.
    destruct (bool_decide_reflect (c = " ")) as [->|Hc].
    + exists [], (w :: ws). split_and!; [done| |done].
      constructor; [|done]. intros Hnil. specialize (Hw Hnil).
      injection Hw as ->. done.
    + by exists (c :: w), ws.
Qed.

Lemma split_space_all_nonempty s :
  double_space s = false → strip s = s → s ≠ [] →
  Forall (λ p, p ≠ []) (split_space s).
Proof.
  intros Hd Hs Hne.
  assert (rstrip s = s) as Hr by (rewrite <-Hs at 1; by rewrite rstrip_strip).
  assert (lstrip s = s) as Hl by (rewrite <-Hs at 1; by rewrite lstrip_strip).
  destruct (split_space_pieces s) as (w & ws & -> & Hws & Hw);
    [done|by apply rstrip_last|done|].
  constructor; [|done]. intros Hnil.
  by apply (head_ok_not_space s); [apply head_ok_iff|apply Hw].
Qed.

Lemma filter_nonempty_id (ps : list str) :
  Forall (λ p, p ≠ []) ps → filter (λ p, p ≠ []) ps = ps.
Proof.
  induction 1 as [|p ps Hp Hps IH]; [done|].
  by rewrite filter_cons_True, IH.
Qed.

Lemma double_space_cleaned text : double_space (cleaned text) = false.
Proof. apply double_space_strip, double_space_collapse. Qed.

Lemma strip_cleaned text : strip (cleaned text) = cleaned text.
Proof. apply strip_idemp. Qed.

Lemma remove_spaces_cleaned text :
  remove_spaces (cleaned text) = remove_spaces (strip text).
Proof.
  unfold cleaned.
  by rewrite !remove_spaces_strip, remove_spaces_collapse,
    remove_spaces_temp_processed.
Qed.

Lemma split_boundaries_join text :
  join_space (split_boundaries text) = cleaned text.
Proof.
  unfold split_boundaries, initial_parts. fold (cleaned text).
  destruct (decide (cleaned text = [])) as [->|Hne]; [done|].
  rewrite filter_nonempty_id; [apply join_split_space|].
  apply split_space_all_nonempty;
    [apply double_space_cleaned|apply strip_cleaned|done].
Qed.

(** ** The longest word at a position *)

Lemma length_slice s a b : b ≤ length s → length (slice s a b) = b - a.
Proof. intros Hb. unfold slice. rewrite length_take, length_drop. lia. Qed.

Lemma take_slice s a b : a ≤ b → take a s ++ slice s a b = take b s.
Proof.
  intros Hab. unfold slice. rewrite take_take_drop. f_equal. lia.
Qed.

Section Scan.

Context (kb : gset str).

Lemma probe_longest_upto part pos n best :
  pos + n < length part →
  longest_upto kb part pos (pos + n) best →
  longest_upto kb part pos (pos + S n) (probe kb part pos best (pos + n)).
Proof.
  intros Hn Hbest. unfold probe.
  destruct (known kb (slice part pos (pos + n + 1))) eqn:Hk.
  - rewrite bool_decide_eq_true_2.
    + unfold longest_upto. cbn. split_and!; [lia..|done|done|intros; lia].
    + rewrite length_slice by lia. unfold longest_upto in Hbest.
      destruct (best_match_end best) as [e|].
      * destruct Hbest as (He & -> & _). rewrite length_slice by lia. lia.
      * destruct Hbest as [-> _]. cbn. lia.
  - unfold longest_upto in *. destruct (best_match_end best) as [e|].
    + destruct Hbest as (He & Hw & Hke & Hlater).
      split_and!; [lia..|done|done|]. intros e' He'.
      destruct (decide (e' = pos + n + 1)) as [->|]; [done|].
      apply Hlater. lia.
    + destruct Hbest as [Hw Hlater]. split; [done|]. intros e' He'.
      destruct (decide (e' = pos + n + 1)) as [->|]; [done|].
      apply Hlater. lia.
Qed.

Lemma foldl_probe_longest_upto part pos n :
  pos + n ≤ length part →
  longest_upto kb part pos (pos + n)
    (foldl (probe kb part pos) (BestMatch None []) (seq pos n)).
Proof.
  induction n as [|n IH]; intros Hn.
  - split; [done|]. intros; lia.
  - rewrite seq_S, foldl_app. cbn [foldl].
    apply probe_longest_upto; [lia|]. apply IH. lia.
Qed.

Lemma longest_match_spec part pos :
  pos ≤ length part →
  longest_upto kb part pos (length part) (longest_match kb part pos).
Proof.
  intros Hpos. unfold longest_match.
  replace (length part) with (pos + (length part - pos)) at 1 by lia.
  apply foldl_probe_longest_upto. lia.
Qed.

(** ** One round of the scan *)

Lemma while_body_spec part st :
  current_pos st ≤ length part →
  match while_body kb part st with
  | Next st' =>
      current_pos st < current_pos st' ≤ length part ∧
      segmented_sub_parts st' =
        segmented_sub_parts st ++ [slice part (current_pos st) (current_pos st')] ∧
      known kb (slice part (current_pos st) (current_pos st')) = true ∧
      ∀ e', current_pos st' < e' ≤ length part →
            known kb (slice part (current_pos st) e') = false
  | Break st' =>
      current_pos st' = current_pos st ∧
      segmented_sub_parts st' =
        segmented_sub_parts st ++ [drop (current_pos st) part] ∧
      ∀ e', current_pos st < e' ≤ length part →
            known kb (slice part (current_pos st) e') = false
  end.
Proof.
  intros Hpos. pose proof (longest_match_spec part _ Hpos) as Hbest.
  unfold while_body, longest_upto in *.
  destruct (best_match_end _) as [e|]; cbn.
  - destruct Hbest as (He & -> & Hk & Hlater). done.
  - destruct Hbest as [_ Hnone]. done.
Qed.

(** ** The loop *)

Lemma while_loop_done fuel part st :
  ¬ current_pos st < length part →
  while_loop kb fuel part st = Some (segmented_sub_parts st).
Proof. intros Hpos. destruct fuel; cbn; by rewrite bool_decide_eq_false_2. Qed.

Lemma while_loop_round fuel part st :
  current_pos st < length part →
  while_loop kb (S fuel) part st =
    match while_body kb part st with
    | Next st' => while_loop kb fuel part st'
    | Break st' => Some (segmented_sub_parts st')
    end.
Proof. intros Hpos. cbn. by rewrite bool_decide_eq_true_2. Qed.

Lemma slice_nonempty (part : str) a b :
  a < b ≤ length part → slice part a b ≠ [].
Proof.
  intros Hab Hnil. apply (f_equal length) in Hnil.
  rewrite length_slice in Hnil by lia. cbn in Hnil. lia.
Qed.

Lemma scan_inv_next part st st' :
  scan_inv kb part st → while_body kb part st = Next st' →
  scan_inv kb part st' ∧ current_pos st < current_pos st'.
Proof.
  intros (Hpos & Hcat & Hknown) Hbody.
  pose proof (while_body_spec part st Hpos) as Hspec. rewrite Hbody in Hspec.
  destruct Hspec as (He & Hsegs & Hk & _). split; [|lia].
  unfold scan_inv. rewrite Hsegs. split_and!; [lia| |].
  - rewrite concat_app, Hcat. cbn. rewrite app_nil_r. apply take_slice. lia.
  - apply Forall_app. split; [done|]. repeat constructor; [done|].
    apply slice_nonempty. lia.
Qed.

Lemma while_loop_total part m : ∀ st,
  scan_inv kb part st → length part - current_pos st ≤ m →
  ∃ subs,
    (∀ fuel, length part - current_pos st ≤ fuel →
             while_loop kb fuel part st = Some subs) ∧
    scan_result kb part subs.
Proof.
  induction m as [|m IH]; intros st Hinv Hm.
  - destruct Hinv as (Hpos & Hcat & Hknown).
    exists (segmented_sub_parts st). split.
    + intros fuel _. apply while_loop_done. lia.
    + split; [rewrite Hcat; apply take_ge; lia|].
      exists (segmented_sub_parts st), []. rewrite app_nil_r.
      split_and!; [done|done|cbn; lia|constructor].
  - destruct (decide (current_pos st < length part)) as [Hlt|Hge].
    2:{ apply IH; [done|lia]. }
    destruct (while_body kb part st) as [st'|st'] eqn:Hbody.
    + destruct (scan_inv_next _ _ _ Hinv Hbody) as [Hinv' Hadv].
      destruct (IH st' Hinv') as (subs & Hrun & Hres); [lia|].
      exists subs. split; [|done]. intros [|fuel] Hfuel; [lia|].
      rewrite while_loop_round, Hbody by done. apply Hrun. lia.
    + destruct Hinv as (Hpos & Hcat & Hknown).
      pose proof (while_body_spec part st Hpos) as Hspec.
      rewrite Hbody in Hspec. destruct Hspec as (_ & Hsegs & _).
      exists (segmented_sub_parts st'). split.
      * intros [|fuel] Hfuel; [lia|]. by rewrite while_loop_round, Hbody.
      * rewrite Hsegs. split.
        -- rewrite concat_app, Hcat. cbn. rewrite app_nil_r. apply take_drop.
        -- eexists _, _. split_and!; [done..|cbn; lia|].
           repeat constructor. intros Hnil. apply (f_equal length) in Hnil.
           rewrite length_drop in Hnil. cbn in Hnil. lia.
Qed.

Lemma scan_inv_start part : scan_inv kb part (ScanState 0 []).
Proof. split_and!; cbn; [lia|by rewrite take_0|done]. Qed.

Lemma scan_total part : ∃ subs, scan kb part = Some subs ∧ scan_result kb part subs.
Proof.
  destruct (while_loop_total part (length part) _ (scan_inv_start part))
    as (subs & Hrun & Hres); [cbn; lia|].
  exists subs. split; [|done]. apply Hrun. cbn. lia.
Qed.

End Scan.

(** ** The last strip *)

Lemma head_ok_head s t : head s = head t → head_ok s = head_ok t.
Proof. destruct s, t; cbn; congruence. Qed.

Lemma strip_fixed s :
  head_ok s = true → head_ok (reverse s) = true → strip s = s.
Proof.
  intros Hl Hr. unfold strip, rstrip.
  by rewrite (lstrip_head_ok s), (lstrip_head_ok (reverse s)), reverse_involutive.
Qed.

Lemma strip_fixed_inv s :
  strip s = s → head_ok s = true ∧ head_ok (reverse s) = true.
Proof.
  intros Hs. split.
  - rewrite <-Hs. apply head_ok_strip.
  - assert (rstrip s = s) as Hr by (rewrite <-Hs at 1; by rewrite rstrip_strip).
    apply head_ok_iff. unfold rstrip in Hr. rewrite <-Hr at 2.
    by rewrite reverse_involutive.
Qed.

Lemma head_join_space (ws : list str) :
  Forall (λ w, w ≠ []) ws → head (join_space ws) = head (concat ws).
Proof.
  destruct 1 as [|w ws Hw Hws]; [done|].
  destruct w as [|c w]; [done|]. by destruct ws.
Qed.

Lemma last_join_space (ws : list str) :
  Forall (λ w, w ≠ []) ws → last (join_space ws) = last (concat ws).
Proof.
  induction 1 as [|w ws Hw Hws IH]; [done|]. destruct ws as [|w' ws].
  - cbn. by rewrite app_nil_r.
  - rewrite join_space_cons by done.
    change (concat (w :: w' :: ws)) with (w ++ concat (w' :: ws)).
    rewrite last_app, (last_app w), last_cons, IH.
    destruct (last (concat (w' :: ws))) eqn:Hlast; [done|].
    apply last_None in Hlast. apply Forall_cons in Hws as [Hw' _].
    by destruct w'.
Qed.

Lemma strip_join_space_solid (ws : list str) :
  Forall solid ws → strip (concat ws) = concat ws →
  strip (join_space ws) = join_space ws.
Proof.
  intros Hsolid [Hl Hr]%strip_fixed_inv.
  assert (Forall (λ w, w ≠ []) ws) as Hne
    by (eapply Forall_impl; [done|]; by intros w [? _]).
  apply strip_fixed.
  - by rewrite (head_ok_head _ (concat ws)) by by apply head_join_space.
  - rewrite (head_ok_head _ (reverse (concat ws))); [done|].
    rewrite !head_reverse. by apply last_join_space.
Qed.

Lemma strip_remove_spaces_cleaned text :
  strip (remove_spaces (cleaned text)) = remove_spaces (cleaned text).
Proof. by rewrite <-remove_spaces_strip, strip_cleaned. Qed.

(** ** One part, all parts, the whole text *)

Lemma elem_of_concat (c : ascii) (w : str) (ws : list str) :
  w ∈ ws → c ∈ w → c ∈ concat ws.
Proof.
  induction 1 as [w ws|w' w ws Hw IH]; intros Hc; cbn; apply elem_of_app; auto.
Qed.

Lemma concat_no_space (ws : list str) :
  " " ∉ concat ws → Forall (λ w, " " ∉ w) ws.
Proof.
  intros Hcat. apply Forall_forall. intros w Hw Hc.
  by apply Hcat, (elem_of_concat _ w).
Qed.

Section Segment.

Context (kb : gset str).

Lemma known_spec s : known kb s = true ↔ lower s ∈ kb.
Proof. apply bool_decide_eq_true. Qed.

Lemma known_false s : known kb s = false ↔ lower s ∉ kb.
Proof. apply bool_decide_eq_false. Qed.

Lemma scan_result_known_but_last part subs :
  scan_result kb part subs → known_but_last kb subs.
Proof.
  intros (_ & ws & tl & -> & Hws & Htl & _) i w Hi Hlook.
  rewrite length_app in Hi. rewrite lookup_app_l in Hlook by lia.
  rewrite Forall_lookup in Hws. by apply known_spec, (Hws i w).
Qed.

Lemma scan_result_nonempty part subs :
  scan_result kb part subs → Forall (λ w, w ≠ []) subs.
Proof.
  intros (_ & ws & tl & -> & Hws & _ & Htl). apply Forall_app. split; [|done].
  eapply Forall_impl; [exact Hws|]. by intros w [_ Hw].
Qed.

Lemma segment_unfold part subs :
  scan kb part = Some subs →
  segment kb part =
    if known kb part then Some [part]
    else if bool_decide (1 < length subs) then Some subs else Some [part].
Proof.
  intros Hscan. unfold segment. rewrite Hscan. cbn.
  destruct (known kb part); [done|].
  destruct subs as [|w subs]; [done|]. cbn [negb andb].
  rewrite (bool_decide_eq_false_2 (_ = [])) by done. cbn [negb andb].
  by destruct (bool_decide _).
Qed.

Lemma segment_total part :
  ∃ segs, segment kb part = Some segs ∧ concat segs = part ∧
          known_but_last kb segs ∧ (part ≠ [] → Forall (λ w, w ≠ []) segs).
Proof.
  destruct (scan_total kb part) as (subs & Hscan & Hres).
  rewrite (segment_unfold _ _ Hscan).
  assert (concat [part] = part ∧ known_but_last kb [part] ∧
          (part ≠ [] → Forall (λ w, w ≠ []) [part])) as Hone.
  { split_and!; [apply app_nil_r|intros i w Hi; cbn in Hi; lia|].
    by repeat constructor. }
  destruct (known kb part); [by exists [part]|].
  destruct (bool_decide (1 < length subs)); [|by exists [part]].
  exists subs. split_and!; [done|apply Hres| |].
  - by apply (scan_result_known_but_last part).
  - intros _. by apply (scan_result_nonempty part).
Qed.

Lemma for_parts_skip parts final_parts :
  for_parts kb parts final_parts =
    for_parts kb (filter (λ part, part ≠ []) parts) final_parts.
Proof.
  revert final_parts. induction parts as [|part parts IH]; intros acc; [done|].
  destruct (decide (part = [])) as [->|Hne].
  - rewrite filter_cons_False by (by intros []). cbn. apply IH.
  - rewrite filter_cons_True by done. cbn.
    rewrite bool_decide_eq_false_2 by done.
    destruct (segment kb part); cbn; [apply IH|done].
Qed.

Lemma for_parts_total parts : ∀ final_parts,
  Forall (λ w, " " ∉ w) parts →
  ∃ segs, for_parts kb parts final_parts = Some (final_parts ++ segs) ∧
          concat segs = concat parts ∧ Forall solid segs.
Proof.
  induction parts as [|part parts IH]; intros acc Hparts.
  - exists []. by rewrite app_nil_r.
  - apply Forall_cons in Hparts as [Hpart Hparts]. cbn [for_parts].
    destruct (bool_decide_reflect (part = [])) as [->|Hne]; [by apply IH|].
    destruct (segment_total part) as (segs & -> & Hcat & _ & Hsolid). cbn.
    destruct (IH (acc ++ segs) Hparts) as (more & -> & Hmore & Hms).
    exists (segs ++ more). rewrite app_assoc. split_and!; [done| |].
    + by rewrite concat_app, Hcat, Hmore.
    + apply Forall_app. split; [|done].
      specialize (Hsolid Hne). rewrite <-Hcat in Hpart.
      apply concat_no_space in Hpart.
      rewrite Forall_forall in Hsolid, Hpart. apply Forall_forall.
      intros w Hw. split; auto.
Qed.

(** The result of the whole function: the words left in [final_parts],
    joined and stripped. *)
Lemma separate_words_enhanced_total text :
  ∃ final_parts,
    separate_words_enhanced kb text = Some (strip (join_space final_parts)) ∧
    Forall solid final_parts ∧
    concat final_parts = remove_spaces (cleaned text).
Proof.
  unfold separate_words_enhanced.
  destruct (bool_decide_reflect (text = [])) as [->|Hne]; [by exists []|].
  destruct (for_parts_total (initial_parts text) [])
    as (segs & -> & Hcat & Hsolid); [apply split_space_no_space|].
  exists segs. split_and!; [done..|].
  rewrite Hcat. apply concat_split_space.
Qed.

(** The strip of the last line finds nothing to remove. *)
Lemma separate_words_enhanced_joined text :
  ∃ final_parts,
    separate_words_enhanced kb text = Some (join_space final_parts) ∧
    Forall solid final_parts ∧
    concat final_parts = remove_spaces (cleaned text).
Proof.
  destruct (separate_words_enhanced_total text) as (fp & Hout & Hsolid & Hcat).
  exists fp. split_and!; [|done..].
  rewrite Hout, strip_join_space_solid; [done..|].
  rewrite Hcat. apply strip_remove_spaces_cleaned.
Qed.

End Segment.

(** ** A round that finds nothing *)

Section Miss.

Context (kb : gset str).

Lemma while_body_miss part st :
  current_pos st < length part →
  (∀ e, current_pos st < e ≤ length part →
        lower (slice part (current_pos st) e) ∉ kb) →
  while_body kb part st =
    Break (ScanState (current_pos st)
             (segmented_sub_parts st ++ [drop (current_pos st) part])).
Proof.
  intros Hpos Hnone.
  pose proof (while_body_spec kb part st ltac:(lia)) as Hspec.
  destruct (while_body kb part st) as [st1|[e1 subs1]]; cbn in Hspec.
  - destruct Hspec as (He1 & _ & Hk1 & _). apply known_spec in Hk1.
    by destruct (Hnone (current_pos st1) He1).
  - by destruct Hspec as (-> & -> & _).
Qed.

Lemma while_loop_miss part st fuel :
  current_pos st < length part →
  (∀ e, current_pos st < e ≤ length part →
        lower (slice part (current_pos st) e) ∉ kb) →
  while_loop kb (S fuel) part st =
    Some (segmented_sub_parts st ++ [drop (current_pos st) part]).
Proof.
  intros Hpos Hnone. rewrite while_loop_round by done.
  by rewrite while_body_miss.
Qed.

Lemma scan_unknown t :
  no_known_substring kb t → scan kb t = Some [t] ∨ t = [].
Proof.
  intros Hnone. destruct t as [|c t]; [by right|left].
  unfold scan. cbn [length]. rewrite while_loop_miss; [done|cbn; lia|].
  intros e He. by apply Hnone.
Qed.

Lemma segment_single t subs :
  scan kb t = Some subs → length subs ≤ 1 → segment kb t = Some [t].
Proof.
  intros Hscan Hlen. rewrite (segment_unfold _ _ _ Hscan).
  rewrite (bool_decide_eq_false_2 (1 < _)) by lia.
  by destruct (known kb t).
Qed.

Lemma segment_unknown t : no_known_substring kb t → segment kb t = Some [t].
Proof.
  intros Ht. destruct (scan_unknown t Ht) as [Hscan| ->].
  - apply (segment_single t [t]); [done|cbn; lia].
  - apply (segment_single [] []); [reflexivity|cbn; lia].
Qed.

End Miss.


(** ** Spaces put in *)

Lemma spaced_refl s : spaced s s.
Proof. induction s; by constructor. Qed.

Lemma spaced_app s t s' t' : spaced s t → spaced s' t' → spaced (s ++ s') (t ++ t').
Proof. induction 1; intros Hs'; cbn; [done|constructor; auto..]. Qed.

Lemma spaced_trans s t u : spaced s t → spaced t u → spaced s u.
Proof.
  intros Hst Htu. revert s Hst.
  induction Htu as [|c t u Htu IH|t u Htu IH]; intros s Hst.
  - done.
  - inversion Hst as [|c' s' t' Hs't'|s' t' Hs't']; subst.
    + constructor. by apply IH.
    + constructor. by apply IH.
  - constructor. by apply IH.
Qed.

Lemma spaced_sub_lookaround behind ahead prev s :
  spaced s (sub_lookaround behind ahead prev s).
Proof.
  revert prev. induction s as [|c s IH]; intros prev; [constructor|].
  cbn [sub_lookaround].
  destruct (match prev with Some p => _ | None => _ end); cbn;
    repeat constructor; apply IH.
Qed.

Lemma remove_spaces_spaced s t : spaced s t → remove_spaces t = remove_spaces s.
Proof.
  induction 1 as [|c s t Hst IH|s t Hst IH]; [done| |done].
  by rewrite !remove_spaces_cons, IH.
Qed.

Lemma spaced_lstrip s t : spaced s t → spaced (lstrip s) (lstrip t).
Proof.
  induction 1 as [|c s t Hst IH|s t Hst IH]; [constructor| |done].
  cbn [lstrip]. destruct (is_space c); [done|by constructor].
Qed.

Lemma spaced_reverse s t : spaced s t → spaced (reverse s) (reverse t).
Proof.
  induction 1 as [|c s t Hst IH|s t Hst IH]; [constructor| |].
  - rewrite !reverse_cons. apply spaced_app; [done|apply spaced_refl].
  - rewrite reverse_cons, <-(app_nil_r (reverse s)).
    apply spaced_app; [done|repeat constructor].
Qed.

Lemma spaced_strip s t : spaced s t → spaced (strip s) (strip t).
Proof.
  intros Hst. unfold strip, rstrip.
  by apply spaced_reverse, spaced_lstrip, spaced_reverse, spaced_lstrip.
Qed.

Lemma collapse_spaces_solid c s :
  c ≠ " " → collapse_spaces (c :: s) = c :: collapse_spaces s.
Proof.
  intros Hc. destruct s as [|c' s]; [done|].
  by rewrite collapse_spaces_cons, (bool_decide_eq_false_2 (c = " ")).
Qed.

Lemma collapse_spaces_space s :
  collapse_spaces (" " :: s) =
    if bool_decide (head s = Some " ") then collapse_spaces s
    else " " :: collapse_spaces s.
Proof.
  destruct s as [|c s]; [done|]. rewrite collapse_spaces_cons. cbn [head andb].
  rewrite (bool_decide_eq_true_2 (" " = " ")) by done. cbn [andb].
  destruct (bool_decide_reflect (c = " ")) as [->|Hc].
  - by rewrite bool_decide_eq_true_2.
  - by rewrite bool_decide_eq_false_2 by congruence.
Qed.

Lemma spaced_head_space s t : spaced s t → head s = Some " " → head t = Some " ".
Proof. by destruct 1. Qed.

(** Putting a space in front of a text that starts with none. *)
Lemma spaced_front_space s r :
  head s ≠ Some " " → spaced s (" " :: r) → spaced (" " :: s) (" " :: r).
Proof.
  intros Hs Hsr. inversion Hsr as [|c s' t' Hst'|s' t' Hst']; subst; [done|].
  by constructor.
Qed.

(** Runs of spaces cut down on both sides. *)
Lemma spaced_collapse_spaces s t :
  spaced s t → spaced (collapse_spaces s) (collapse_spaces t).
Proof.
  induction 1 as [|c s t Hst IH|s t Hst IH]; [constructor| |].
  - destruct (decide (c = " ")) as [->|Hc].
    2:{ rewrite !collapse_spaces_solid by done. by constructor. }
    rewrite !collapse_spaces_space.
    destruct (bool_decide_reflect (head s = Some " ")) as [Hs|Hs].
    + by rewrite bool_decide_eq_true_2 by by apply (spaced_head_space s).
    + case_bool_decide as Ht; [|by constructor].
      pose proof (head_collapse_spaces t) as Hh. rewrite Ht in Hh.
      destruct (collapse_spaces t) as [|d r]; [done|]. injection Hh as ->.
      apply spaced_front_space; [by rewrite head_collapse_spaces|done].
  - rewrite collapse_spaces_space. case_bool_decide; [done|by constructor].
Qed.

Lemma spaced_temp_processed text : spaced text (temp_processed text).
Proof.
  unfold temp_processed, sub_digit_alpha, sub_alpha_digit, sub_acronym,
    sub_lower_upper.
  repeat (eapply spaced_trans; [|apply spaced_sub_lookaround]).
  apply spaced_refl.
Qed.

(** The cleaned-up text keeps the spaces of the text, one for every run
    inside it, and has the spaces of the boundaries besides. *)
Lemma spaced_cleaned text : spaced (strip (collapse_spaces text)) (cleaned text).
Proof.
  apply spaced_strip, spaced_collapse_spaces, spaced_temp_processed.
Qed.

Lemma join_space_app (ws vs : list str) :
  ws ≠ [] → vs ≠ [] →
  join_space (ws ++ vs) = join_space ws ++ " " :: join_space vs.
Proof.
  induction ws as [|w ws IH]; [done|]. intros _ Hvs. destruct ws as [|w' ws].
  - cbn [app]. by rewrite join_space_cons.
  - cbn [app] in *. rewrite !(join_space_cons w) by done.
    rewrite IH by done. by rewrite <-app_assoc.
Qed.

(** Pieces joined with spaces are the pieces put together, with spaces put
    in. *)
Lemma spaced_join_space_concat (segs : list str) :
  spaced (concat segs) (join_space segs).
Proof.
  induction segs as [|w segs IH]; [constructor|]. destruct segs as [|w' segs].
  - cbn. rewrite app_nil_r. apply spaced_refl.
  - rewrite join_space_cons by done.
    change (concat (w :: w' :: segs)) with (w ++ concat (w' :: segs)).
    apply spaced_app; [apply spaced_refl|by constructor].
Qed.

Lemma spaced_join_space_pieces (ts : list str) (segss : list (list str)) :
  Forall2 (λ t segs, concat segs = t ∧ segs ≠ []) ts segss →
  spaced (join_space ts) (join_space (concat segss)).
Proof.
  induction 1 as [|t segs ts segss [Hcat Hne] Hall IH]; [constructor|].
  cbn [concat]. destruct Hall as [|t' segs' ts segss [Hcat' Hne'] Hall].
  - cbn. rewrite app_nil_r, <-Hcat. apply spaced_join_space_concat.
  - rewrite join_space_cons by done.
    rewrite join_space_app by (done || by destruct segs').
    apply spaced_app; [rewrite <-Hcat; apply spaced_join_space_concat|].
    by constructor.
Qed.

(** ** Tokens and their segments *)

Section Tokens.

Context (kb : gset str).

Lemma for_parts_tokens parts : ∀ final_parts,
  ∃ segss,
    for_parts kb parts final_parts = Some (final_parts ++ concat segss) ∧
    Forall2 (λ t segs, segment kb t = Some segs)
      (filter (λ part, part ≠ []) parts) segss.
Proof.
  induction parts as [|part parts IH]; intros acc.
  - exists []. by rewrite app_nil_r.
  - cbn [for_parts]. destruct (bool_decide_reflect (part = [])) as [->|Hne].
    + rewrite filter_cons_False by (by intros []). apply IH.
    + rewrite filter_cons_True by done.
      destruct (segment_total kb part) as (segs & Hseg & _). rewrite Hseg. cbn.
      destruct (IH (acc ++ segs)) as (segss & -> & Hall).
      exists (segs :: segss). cbn [concat].
      split; [by rewrite app_assoc|by constructor].
Qed.

Lemma separate_words_enhanced_tokens text :
  ∃ segss,
    Forall2 (λ t segs, segment kb t = Some segs) (split_boundaries text) segss ∧
    separate_words_enhanced kb text = Some (join_space (concat segss)) ∧
    Forall solid (concat segss) ∧
    concat (concat segss) = remove_spaces (cleaned text).
Proof.
  destruct (decide (text = [])) as [->|Hne].
  { exists []. split_and!; [constructor|done|constructor|done]. }
  destruct (for_parts_tokens (initial_parts text) []) as (segss & Hfor & Hall).
  destruct (for_parts_total kb (initial_parts text) [])
    as (segs & Hfor' & Hcat & Hsolid); [apply split_space_no_space|].
  rewrite Hfor in Hfor'. injection Hfor' as <-.
  assert (concat (concat segss) = remove_spaces (cleaned text)) as Hcc
    by (rewrite Hcat; apply concat_split_space).
  exists segss. split_and!; [done| |done..].
  unfold separate_words_enhanced. rewrite bool_decide_eq_false_2 by done.
  rewrite Hfor. cbn -[strip]. rewrite strip_join_space_solid; [done..|].
  rewrite Hcc. apply strip_remove_spaces_cleaned.
Qed.

End Tokens.

(** The result is the cleaned-up text with the spaces of step 2 put in. *)
Lemma spaced_cleaned_result (kb : gset str) (text : str) :
  ∃ ws, separate_words_enhanced kb text = Some (join_space ws) ∧
        Forall solid ws ∧ concat ws = remove_spaces (cleaned text) ∧
        spaced (cleaned text) (join_space ws).
Proof.
  destruct (separate_words_enhanced_tokens kb text)
    as (segss & Hall & Hout & Hsolid & Hcat).
  exists (concat segss). split_and!; [done..|].
  rewrite <-split_boundaries_join. apply spaced_join_space_pieces.
  assert (Forall (λ t, t ≠ []) (split_boundaries text)) as Hne.
  { apply Forall_forall. by intros t [? _]%list_elem_of_filter. }
  clear Hout Hsolid Hcat.
  induction Hall as [|t segs ts segss Hseg Hall IH]; [constructor|].
  apply Forall_cons in Hne as [Ht Hne]. constructor; [|by apply IH].
  destruct (segment_total kb t) as (segs' & Hseg' & Hcat & _).
  assert (segs' = segs) as -> by congruence. split; [done|].
  intros ->. by apply Ht.
Qed.

(** * The claims *)

(** ** C1: losslessness *)

(** C1, as stated, fails: on ["a  b"] (two spaces inside) with the empty word
    list the result is ["a b"].  Its spaces taken out it reads ["ab"], and it
    is shorter than the input, so no removal of separators gives the input
    back. *)
Lemma lossless_fails_on_spaces :
  separate_words_enhanced ∅ (py "a  b") = Some (py "a b") ∧
  length (py "a b") < length (py "a  b") ∧
  ¬ lossless ∅ (py "a  b").
Proof.
  split_and!; [reflexivity|cbn; lia|].
  intros (out & Hout & Hs). vm_compute in Hout. by injection Hout as <-.
Qed.

(** C1, amended: the result and the stripped input are the same string once
    the spaces are taken out of both; so an input without spaces and without
    white space at its ends is given back exactly, and an input is never
    changed by more than spaces and white space at its ends. *)
Theorem separate_lossless_up_to_spaces (kb : gset str) (s : str) :
  ∃ out, separate_words_enhanced kb s = Some out ∧
         remove_spaces out = remove_spaces (strip s) ∧
         (" " ∉ s → strip s = s → remove_spaces out = s).
Proof.
  destruct (separate_words_enhanced_total kb s) as (fp & Hout & _ & Hcat).
  exists (strip (join_space fp)).
  assert (remove_spaces (strip (join_space fp)) = remove_spaces (strip s)) as Heq.
  { rewrite remove_spaces_strip, remove_spaces_join_space, Hcat.
    rewrite remove_spaces_idemp, <-remove_spaces_strip.
    by rewrite strip_cleaned, remove_spaces_cleaned. }
  split_and!; [done..|]. intros Hs Hstrip.
  by rewrite Heq, Hstrip, remove_spaces_id.
Qed.

Lemma separate_lossless_up_to_spaces_witness :
  ∃ out, separate_words_enhanced (words ["html"; "parser"; "game"]%string)
           (py "HTMLParserGame2000") = Some out ∧
         remove_spaces out = py "HTMLParserGame2000".
Proof.
  destruct (separate_lossless_up_to_spaces
              (words ["html"; "parser"; "game"]%string)
              (py "HTMLParserGame2000")) as (out & Hout & _ & Hs).
  exists out. split; [done|]. apply Hs; [|reflexivity].
  by_evaluation.
Defined.

(** ** C2: known words *)

(** C2, as stated, fails: ["myVar"] folds to ["myvar"], a word of the list,
    yet the text is cut at the case transition before the list is looked at,
    and neither ["my"] nor ["Var"] is put back together. *)
Lemma known_text_is_cut_anyway :
  lower (py "myVar") ∈ words ["myvar"]%string ∧
  separate_words_enhanced (words ["myvar"]%string) (py "myVar")
    = Some (py "my Var") ∧
  py "my Var" ≠ py "myVar".
Proof.
  split_and!; [|reflexivity|discriminate].
  by_evaluation.
Qed.

(** C2, amended: a text that step 1 leaves as the single token it is, and
    whose case-folded form is a word of the list, is returned unchanged. *)
Theorem known_single_token_unchanged (kb : gset str) (s : str) :
  split_boundaries s = [s] → lower s ∈ kb →
  separate_words_enhanced kb s = Some s.
Proof.
  intros Hsplit Hknown.
  assert (s ≠ []) as Hne.
  { assert (s ∈ split_boundaries s) as Hin by (rewrite Hsplit; left).
    unfold split_boundaries in Hin. by apply list_elem_of_filter in Hin as [? _]. }
  assert (strip s = s) as Hstrip.
  { pose proof (split_boundaries_join s) as Hjoin. rewrite Hsplit in Hjoin.
    cbn in Hjoin. rewrite Hjoin at 2. rewrite Hjoin at 1. apply strip_cleaned. }
  unfold separate_words_enhanced. rewrite bool_decide_eq_false_2 by done.
  rewrite for_parts_skip. fold (split_boundaries s). rewrite Hsplit.
  cbn [for_parts]. rewrite bool_decide_eq_false_2 by done.
  unfold segment. rewrite (proj2 (known_spec kb s) Hknown). cbn -[strip].
  by rewrite Hstrip.
Qed.

Lemma known_single_token_unchanged_witness :
  separate_words_enhanced (words ["game"]%string) (py "Game") = Some (py "Game").
Proof.
  apply known_single_token_unchanged; [reflexivity|].
  by_evaluation.
Defined.

(** ** C3: the longest word wins *)

(** C3: in a round of the scan at a position inside the part, when the
    substring from the cursor to [e] is a word of the list and no longer
    substring from the cursor is, that substring is the piece appended and
    the cursor moves to [e], where the loop goes on.  On the token ["them"]
    with the words ["the"], ["them"], ["hem"] the round at position 0 takes
    all of ["them"], and the segmenter returns [["them"]]. *)
Theorem greedy_longest_match (kb : gset str) (part : str) (st : scan_state) (e : nat) :
  current_pos st < e ≤ length part →
  lower (slice part (current_pos st) e) ∈ kb →
  (∀ e', e < e' ≤ length part → lower (slice part (current_pos st) e') ∉ kb) →
  let st' := ScanState e (segmented_sub_parts st ++ [slice part (current_pos st) e]) in
  while_body kb part st = Next st' ∧
  (∀ fuel, while_loop kb (S fuel) part st = while_loop kb fuel part st') ∧
  while_body (words ["the"; "them"; "hem"]%string) (py "them") (ScanState 0 [])
    = Next (ScanState 4 [py "them"]) ∧
  segment (words ["the"; "them"; "hem"]%string) (py "them") = Some [py "them"].
Proof.
  intros He Hknown Hlongest st'.
  assert (while_body kb part st = Next st') as Hbody.
  { pose proof (while_body_spec kb part st ltac:(lia)) as Hspec.
    destruct (while_body kb part st) as [[e1 subs1]|st1]; cbn in Hspec.
    - destruct Hspec as (He1 & -> & Hk1 & Hlater).
      assert (e1 = e) as ->; [|done].
      destruct (decide (e1 < e)) as [Hlt|Hge].
      + specialize (Hlater e ltac:(lia)). by apply known_false in Hlater.
      + destruct (decide (e < e1)) as [Hgt|]; [|lia].
        apply known_spec in Hk1. by destruct (Hlongest e1 ltac:(lia)).
    - destruct Hspec as (_ & _ & Hnone).
      specialize (Hnone e He). by apply known_false in Hnone. }
  split_and!; [done| |reflexivity..].
  intros fuel. rewrite while_loop_round by lia. by rewrite Hbody.
Qed.

Lemma greedy_longest_match_witness :
  while_body (words ["the"; "them"; "hem"]%string) (py "them") (ScanState 0 [])
    = Next (ScanState 4 [py "them"]).
Proof.
  refine (proj1 (greedy_longest_match (words ["the"; "them"; "hem"]%string)
                   (py "them") (ScanState 0 []) 4 _ _ _)).
  - cbn. lia.
  - by_evaluation.
  - cbn. intros e' He'. lia.
Defined.

(** ** C4: the first miss ends the scan *)

(** C4: in a round of the scan at a position inside the part, when no
    substring from the cursor on is a word of the list, the rest of the part
    from the cursor is appended as one piece and the loop is left with the
    pieces as they then are.  With the words ["gold"] and ["fish"] the token
    ["goldfishxyz"] comes out as ["gold"], ["fish"], ["xyz"]. *)
Theorem unmatched_remainder_stops (kb : gset str) (part : str) (st : scan_state)
    (fuel : nat) :
  current_pos st < length part →
  (∀ e, current_pos st < e ≤ length part →
        lower (slice part (current_pos st) e) ∉ kb) →
  let subs := segmented_sub_parts st ++ [drop (current_pos st) part] in
  while_body kb part st = Break (ScanState (current_pos st) subs) ∧
  while_loop kb (S fuel) part st = Some subs ∧
  segment (words ["gold"; "fish"]%string) (py "goldfishxyz")
    = Some [py "gold"; py "fish"; py "xyz"].
Proof.
  intros Hpos Hnone subs. split_and!; [|  |reflexivity].
  - by apply while_body_miss.
  - by apply while_loop_miss.
Qed.

Lemma unmatched_remainder_stops_witness :
  while_loop (words ["gold"; "fish"]%string) 1 (py "goldfishxyz")
    (ScanState 8 [py "gold"; py "fish"])
  = Some [py "gold"; py "fish"; py "xyz"].
Proof.
  refine (proj1 (proj2 (unmatched_remainder_stops (words ["gold"; "fish"]%string)
                          (py "goldfishxyz") (ScanState 8 [py "gold"; py "fish"])
                          0 _ _))).
  - cbn. lia.
  - cbn [current_pos]. intros e He. change (length (py "goldfishxyz")) with 11 in He.
    assert (e = 9 ∨ e = 10 ∨ e = 11) as [->|[->| ->]] by lia;
      by_evaluation.
Defined.

(** ** C5: a scan that did not cut *)

(** C5: when the scan of a token leaves exactly one piece, the segmenter
    returns the token itself as the only segment; and a token no substring of
    which is a word of the list, such as ["qzqzqz"], is scanned into one
    piece and returned as it is. *)
Theorem single_piece_returns_token (kb : gset str) (t : str) :
  (∀ subs, scan kb t = Some subs → length subs = 1 → segment kb t = Some [t]) ∧
  (no_known_substring kb t → segment kb t = Some [t]) ∧
  (no_known_substring kb (py "qzqzqz") →
   scan kb (py "qzqzqz") = Some [py "qzqzqz"] ∧
   segment kb (py "qzqzqz") = Some [py "qzqzqz"]).
Proof.
  split_and!.
  - intros subs Hscan Hlen. apply (segment_single kb t subs); [done|lia].
  - apply segment_unknown.
  - intros Hq. split; [|by apply segment_unknown].
    by destruct (scan_unknown kb _ Hq).
Qed.

Lemma single_piece_returns_token_witness :
  segment (words ["gold"; "fish"]%string) (py "qzqzqz") = Some [py "qzqzqz"].
Proof.
  refine (proj1 (single_piece_returns_token (words ["gold"; "fish"]%string)
                   (py "qzqzqz")) [py "qzqzqz"] _ _); reflexivity.
Defined.

(** ** C6: the segments of a token *)

(** C6: for every token the segmenter returns segments that put together
    give the token back, and every segment before the last folds to a word of
    the list: only the last can be an unmatched rest. *)
Theorem segments_partition_token (kb : gset str) (t : str) :
  ∃ segs, segment kb t = Some segs ∧
          concat segs = t ∧
          ∀ i w, S i < length segs → segs !! i = Some w → lower w ∈ kb.
Proof.
  destruct (segment_total kb t) as (segs & Hseg & Hcat & Hknown & _).
  by exists segs.
Qed.

(** ** C7: the empty word list *)

Lemma for_parts_empty_wordlist parts : ∀ final_parts,
  for_parts ∅ parts final_parts =
    Some (final_parts ++ filter (λ part, part ≠ []) parts).
Proof.
  induction parts as [|part parts IH]; intros acc.
  - by rewrite app_nil_r.
  - cbn [for_parts]. destruct (bool_decide_reflect (part = [])) as [->|Hne].
    + rewrite filter_cons_False by (by intros []). apply IH.
    + rewrite filter_cons_True by done.
      rewrite segment_unknown by (intros a b _; apply not_elem_of_empty).
      cbn. rewrite IH. by rewrite <-app_assoc.
Qed.

(** C7: with the empty word list the result is the tokens of the boundary
    splitter joined with single spaces, and the segmenter returns every
    token as it is. *)
Theorem empty_wordlist_is_boundary_split (s : str) :
  separate_words_enhanced ∅ s = Some (join_space (split_boundaries s)) ∧
  ∀ t, segment ∅ t = Some [t].
Proof.
  split.
  - unfold separate_words_enhanced.
    destruct (bool_decide_reflect (s = [])) as [->|Hne]; [done|].
    rewrite for_parts_empty_wordlist. cbn -[strip].
    fold (split_boundaries s).
    by rewrite split_boundaries_join, strip_cleaned.
  - intros t. apply segment_unknown. intros a b _. apply not_elem_of_empty.
Qed.

(** ** C8: a result for every input *)

(** C8: for every text and every word list the function returns a string,
    and for the empty text the empty string. *)
Theorem separate_words_enhanced_returns (kb : gset str) (text : str) :
  (∃ out, separate_words_enhanced kb text = Some out) ∧
  separate_words_enhanced kb [] = Some [].
Proof.
  split; [|done].
  destruct (separate_words_enhanced_total kb text) as (fp & Hout & _).
  eauto.
Qed.

(** ** C9: spaces of the input *)

(** C9: a space of the text is a boundary like the ones step 1 puts in.
    The result is the text with its runs of spaces cut down to one space and
    the white space at its ends taken off, with spaces put in and nothing
    else done to it: every space left of the text stands in the result, and
    stands alone.  So the result is words without spaces, none of them
    empty, with one space between each two; it never has two spaces in a row
    nor white space at either end, and apart from spaces it is the stripped
    text.  A text with two spaces in a row, or a space at its start or its
    end, is therefore not returned as it is. *)
Theorem input_spaces_are_normalised (kb : gset str) (s : str) :
  ∃ out, separate_words_enhanced kb s = Some out ∧
         spaced (strip (collapse_spaces s)) out ∧
         (∃ ws, Forall solid ws ∧ out = join_space ws) ∧
         double_space out = false ∧
         strip out = out ∧
         remove_spaces out = remove_spaces (strip s) ∧
         (double_space s = true ∨ head s = Some " " ∨ last s = Some " " →
          out ≠ s).
Proof.
  destruct (spaced_cleaned_result kb s) as (ws & Hout & Hsolid & Hcat & Hsp).
  exists (join_space ws).
  assert (double_space (join_space ws) = false) as Hd
    by by apply double_space_join_space.
  assert (strip (join_space ws) = join_space ws) as Hstrip.
  { apply strip_join_space_solid; [done|].
    rewrite Hcat. apply strip_remove_spaces_cleaned. }
  split_and!; [done| |by exists ws|done|done| |].
  - eapply spaced_trans; [apply spaced_cleaned|done].
  - rewrite remove_spaces_join_space, Hcat, remove_spaces_idemp.
    apply remove_spaces_cleaned.
  - apply strip_fixed_inv in Hstrip as [Hl Hr].
    intros [Hs|[Hs|Hs]] Heq; rewrite Heq in *.
    + congruence.
    + by apply (head_ok_not_space s).
    + apply (head_ok_not_space (reverse s)); [done|]. by rewrite head_reverse.
Qed.

Lemma input_spaces_are_normalised_witness :
  ∃ out, separate_words_enhanced (words ["a"]%string) (py " a  b ") = Some out ∧
         spaced (py "a b") out ∧ out ≠ py " a  b ".
Proof.
  destruct (input_spaces_are_normalised (words ["a"]%string) (py " a  b "))
    as (out & Hout & Hsp & _ & _ & _ & _ & Hne).
  exists out. split_and!; [done|exact Hsp|]. apply Hne. by left.
Defined.

(** ** C10: the scan ends *)

(** C10: for every part and every word list the scan from position 0 ends
    with its pieces once it is given as many rounds as the part has
    characters; every probed substring has at least one character, a round
    that finds a word moves the cursor forward and keeps it within the part,
    and a round that finds none leaves the loop.  A word list that holds the
    empty string changes nothing of this. *)
Theorem scan_loop_terminates (kb : gset str) (part : str) :
  (∃ subs, ∀ fuel, length part ≤ fuel →
           while_loop kb fuel part (ScanState 0 []) = Some subs) ∧
  (∀ pos i, pos ≤ i < length part → slice part pos (i + 1) ≠ []) ∧
  (∀ st st', current_pos st ≤ length part →
             while_body kb part st = Next st' →
             current_pos st < current_pos st' ≤ length part) ∧
  (∀ st st' fuel, current_pos st < length part →
             while_body kb part st = Break st' →
             while_loop kb (S fuel) part st = Some (segmented_sub_parts st')) ∧
  scan {[ [] ]} (py "ab") = Some [py "ab"].
Proof.
  split_and!; [| | | |reflexivity].
  - destruct (while_loop_total kb part (length part) _ (scan_inv_start kb part))
      as (subs & Hrun & _); [cbn; lia|].
    exists subs. intros fuel Hfuel. apply Hrun. cbn. lia.
  - intros pos i Hi. apply slice_nonempty. lia.
  - intros st st' Hpos Hbody.
    pose proof (while_body_spec kb part st Hpos) as Hspec.
    rewrite Hbody in Hspec. by destruct Hspec as (He & _).
  - intros st st' fuel Hpos Hbody. rewrite while_loop_round by done.
    by rewrite Hbody.
Qed.

Lemma scan_loop_terminates_witness :
  ∃ subs, while_loop {[ [] ]} 2 (py "ab") (ScanState 0 []) = Some subs.
Proof.
  destruct (proj1 (scan_loop_terminates {[ [] ]} (py "ab"))) as [subs Hrun].
  exists subs. apply Hrun. cbn. lia.
Defined.

(** * Further properties *)

(** ** Where the patterns of step 1 match *)

Lemma ahead1_space_blind behind cls :
  behind " " = false → cls " " = false → SpaceBlind behind (ahead1 cls).
Proof. intros Hb Hc. by split. Qed.

Lemma ahead2_space_blind behind cls1 cls2 :
  behind " " = false → cls1 " " = false → cls2 " " = false →
  SpaceBlind behind (ahead2 cls1 cls2).
Proof.
  intros Hb Hc1 Hc2. split; [done| | | |done].
  - intros [|c2 s]; cbn; [done|by rewrite Hc1].
  - intros c [|d s] [|d' t]; cbn; congruence.
  - intros c s. cbn. by rewrite Hc2, andb_false_r.
Qed.

#[global] Instance lower_upper_blind : SpaceBlind is_lower (ahead1 is_upper).
Proof. by apply ahead1_space_blind. Qed.
#[global] Instance acronym_blind : SpaceBlind is_upper (ahead2 is_upper is_lower).
Proof. by apply ahead2_space_blind. Qed.
#[global] Instance alpha_digit_blind : SpaceBlind is_alpha (ahead1 is_digit).
Proof. by apply ahead1_space_blind. Qed.
#[global] Instance digit_alpha_blind : SpaceBlind is_digit (ahead1 is_alpha).
Proof. by apply ahead1_space_blind. Qed.

Section Lookaround.

Context (behind : ascii → bool) (ahead : str → bool).
Context `{!SpaceBlind behind ahead}.

(** The character before the text as [prev'] sees it can start a match
    only where [prev] can. *)
Definition weaker (prev' prev : option ascii) : Prop :=
  ∀ c, prev' = Some c → behind c = true → prev = Some c.

Lemma weaker_refl prev : weaker prev prev.
Proof. by intros c. Qed.

Lemma weaker_space prev : weaker (Some " ") prev.
Proof. intros c [= <-]. by rewrite behind_space. Qed.

Lemma weaker_None prev : weaker None prev.
Proof. by intros c. Qed.

Lemma ahead_spaced c s t :
  spaced s t → ahead (c :: t) = true → ahead (c :: s) = true.
Proof.
  destruct 1 as [|d s t Hst|s t Hst]; [done| |].
  - by rewrite (ahead_head c (d :: s) (d :: t)).
  - rewrite ahead_before_space. apply ahead_more.
Qed.

Lemma fires_cons prev c rest :
  fires behind ahead prev (c :: rest) =
    match prev with
    | Some p => behind p && ahead (c :: rest)
    | None => false
    end || fires behind ahead (Some c) rest.
Proof. reflexivity. Qed.

Lemma fires_here_weaker prev' prev text text' :
  weaker prev' prev →
  (ahead text' = true → ahead text = true) →
  match prev with Some p => behind p && ahead text | None => false end = false →
  match prev' with Some p => behind p && ahead text' | None => false end = false.
Proof.
  intros Hw Ha Hp. destruct prev' as [p'|]; [|done].
  destruct (behind p') eqn:Hb; [|done]. rewrite (Hw p' eq_refl Hb) in Hp.
  rewrite Hb in Hp. cbn in *. destruct (ahead text'); [|done].
  by rewrite Ha in Hp.
Qed.

(** Putting spaces in makes no new match. *)
Lemma fires_spaced s t : spaced s t → ∀ prev prev',
  weaker prev' prev →
  fires behind ahead prev s = false → fires behind ahead prev' t = false.
Proof.
  induction 1 as [|c s t Hst IH|s t Hst IH]; intros prev prev' Hw; [done| |].
  - rewrite !fires_cons. intros [Hhere Hrest]%orb_false_iff.
    apply orb_false_iff. split; [|by apply (IH (Some c)), Hrest; apply weaker_refl].
    revert Hhere. apply fires_here_weaker; [done|]. by apply ahead_spaced.
  - intros Hs. rewrite fires_cons, ahead_space.
    rewrite (IH prev (Some " ")); [by destruct prev'; rewrite ?andb_false_r|
      apply weaker_space|done].
Qed.

Lemma fires_weaker prev prev' s :
  weaker prev' prev →
  fires behind ahead prev s = false → fires behind ahead prev' s = false.
Proof. intros Hw. by apply fires_spaced; [apply spaced_refl|]. Qed.

(** After the substitution the pattern matches nowhere. *)
Lemma fires_sub_lookaround prev s :
  fires behind ahead prev (sub_lookaround behind ahead prev s) = false.
Proof.
  revert prev. induction s as [|c s IH]; intros prev; [done|].
  cbn [sub_lookaround].
  destruct (match prev with Some p => _ | None => _ end) eqn:Hhere; cbn [app].
  - rewrite fires_cons, ahead_space, fires_cons, behind_space, IH.
    by destruct prev; rewrite ?andb_false_r.
  - rewrite fires_cons, IH, orb_false_r.
    revert Hhere. apply fires_here_weaker; [apply weaker_refl|].
    apply ahead_spaced, spaced_sub_lookaround.
Qed.

(** Where the pattern matches nowhere the substitution changes nothing. *)
Lemma sub_lookaround_id prev s :
  fires behind ahead prev s = false → sub_lookaround behind ahead prev s = s.
Proof.
  revert prev. induction s as [|c s IH]; intros prev; [done|].
  rewrite fires_cons. intros [Hhere Hrest]%orb_false_iff.
  cbn [sub_lookaround]. rewrite Hhere. cbn. by rewrite IH.
Qed.

End Lookaround.

Section Pieces.

Context (behind : ascii → bool) (ahead : str → bool).
Context `{!SpaceBlind behind ahead}.

Lemma fires_space_head prev t :
  fires behind ahead prev (" " :: t) = fires behind ahead (Some " ") t.
Proof.
  rewrite fires_cons, ahead_space. by destruct prev; rewrite ?andb_false_r.
Qed.

(** Taking spaces out of a run of spaces makes no new match. *)
Lemma fires_collapse_spaces s : ∀ prev prev',
  weaker behind prev' prev →
  fires behind ahead prev s = false →
  fires behind ahead prev' (collapse_spaces s) = false.
Proof.
  induction s as [|c s IH]; intros prev prev' Hw; [done|].
  destruct s as [|c' s]; [by apply fires_weaker|].
  rewrite collapse_spaces_cons, fires_cons.
  intros [Hhere Hrest]%orb_false_iff.
  destruct (bool_decide_reflect (c = " ")) as [->|Hc]; cbn [andb].
  - destruct (bool_decide_reflect (c' = " ")) as [->|Hc'].
    + pose proof (head_collapse_spaces (" " :: s)) as Hh.
      destruct (collapse_spaces (" " :: s)) as [|d t] eqn:Ht; [done|].
      injection Hh as ->. rewrite fires_space_head.
      rewrite <-(fires_space_head (Some " ")).
      by apply (IH (Some " ")); [apply weaker_refl|].
    + rewrite fires_space_head.
      by apply (IH (Some " ")); [apply weaker_refl|].
  - rewrite fires_cons. apply orb_false_iff. split.
    + revert Hhere. apply fires_here_weaker; [done|].
      rewrite (ahead_head c _ (c' :: s)); [done|apply head_collapse_spaces].
    + by apply (IH (Some c)); [apply weaker_refl|].
Qed.

Lemma fires_suffix a s : ∀ prev,
  fires behind ahead prev (a ++ s) = false → fires behind ahead None s = false.
Proof.
  induction a as [|c a IH]; intros prev; cbn [app].
  - apply fires_weaker; [done|apply weaker_None].
  - rewrite fires_cons. intros [_ Hrest]%orb_false_iff. by apply (IH (Some c)).
Qed.

Lemma fires_prefix s b : ∀ prev,
  fires behind ahead prev (s ++ b) = false → fires behind ahead prev s = false.
Proof.
  induction s as [|c s IH]; intros prev; [done|]. cbn [app].
  rewrite !fires_cons. intros [Hhere Hrest]%orb_false_iff.
  apply orb_false_iff. split; [|by apply IH].
  revert Hhere. apply fires_here_weaker; [apply weaker_refl|].
  destruct s as [|d s]; [apply ahead_more|].
  by rewrite (ahead_head c (d :: s) ((d :: s) ++ b)).
Qed.

Lemma fires_strip s :
  fires behind ahead None s = false → fires behind ahead None (strip s) = false.
Proof.
  destruct (strip_infix s) as (a & b & Hs). rewrite Hs at 1.
  intros Hf%fires_suffix. by apply fires_prefix in Hf.
Qed.

Lemma fires_join_space ws :
  fires behind ahead None (join_space ws) = false →
  Forall (λ w, fires behind ahead None w = false) ws.
Proof.
  induction ws as [|w ws IH]; [constructor|]. destruct ws as [|w' ws].
  - by repeat constructor.
  - rewrite join_space_cons by done. intros Hf. constructor.
    + by apply fires_prefix in Hf.
    + apply IH. change (w ++ " " :: join_space (w' :: ws))
        with (w ++ [" "] ++ join_space (w' :: ws)) in Hf.
      rewrite app_assoc in Hf. by apply fires_suffix in Hf.
Qed.

Lemma fires_cleaned text :
  fires behind ahead None (temp_processed text) = false →
  fires behind ahead None (cleaned text) = false.
Proof.
  intros Hf. apply fires_strip.
  by apply (fires_collapse_spaces _ None); [apply weaker_refl|].
Qed.

End Pieces.

Lemma fires_after_sub behind ahead `{!SpaceBlind behind ahead} behind' ahead' s :
  fires behind ahead None s = false →
  fires behind ahead None (sub_lookaround behind' ahead' None s) = false.
Proof.
  exact (fires_spaced behind ahead _ _ (spaced_sub_lookaround _ _ _ _)
           None None (weaker_refl _ _)).
Qed.

(** After step 1 none of its four patterns matches anywhere: each one is
    applied where it matches, and the spaces the later ones put in bring no
    new match for the earlier ones. *)
Lemma no_boundary_temp_processed text : no_boundary (temp_processed text).
Proof.
  unfold no_boundary, temp_processed, sub_digit_alpha, sub_alpha_digit,
    sub_acronym, sub_lower_upper.
  split_and!;
    repeat first [apply fires_sub_lookaround | apply fires_after_sub];
    apply _.
Qed.

Lemma temp_processed_id text : no_boundary text → temp_processed text = text.
Proof.
  intros (H1 & H2 & H3 & H4).
  unfold temp_processed, sub_digit_alpha, sub_alpha_digit, sub_acronym,
    sub_lower_upper.
  by rewrite (sub_lookaround_id _ _ _ _ H1), (sub_lookaround_id _ _ _ _ H2),
    (sub_lookaround_id _ _ _ _ H3), (sub_lookaround_id _ _ _ _ H4).
Qed.

Lemma no_boundary_cleaned text : no_boundary (cleaned text).
Proof.
  destruct (no_boundary_temp_processed text) as (H1 & H2 & H3 & H4).
  split_and!; apply fires_cleaned; first [apply _|done].
Qed.

Lemma no_boundary_spaced s t : spaced s t → no_boundary s → no_boundary t.
Proof.
  intros Hst (H1 & H2 & H3 & H4).
  split_and!;
    eapply fires_spaced; first [apply _|done|apply weaker_refl].
Qed.

Lemma no_boundary_join_space ws :
  no_boundary (join_space ws) → Forall no_boundary ws.
Proof.
  intros (H1 & H2 & H3 & H4).
  apply fires_join_space in H1, H2, H3, H4; try apply _.
  rewrite Forall_forall in H1, H2, H3, H4. apply Forall_forall.
  intros w Hw. split_and!; auto.
Qed.

Lemma split_boundaries_no_boundary text : Forall no_boundary (split_boundaries text).
Proof.
  pose proof (no_boundary_cleaned text) as Hc.
  unfold cleaned in Hc. rewrite <-join_split_space in Hc.
  apply no_boundary_join_space in Hc. rewrite Forall_forall in Hc.
  apply Forall_forall. intros t [_ Ht]%list_elem_of_filter. by apply Hc.
Qed.

Lemma collapse_spaces_id s : double_space s = false → collapse_spaces s = s.
Proof.
  induction s as [|c s IH]; [done|]. destruct s as [|c' s]; [done|].
  rewrite double_space_cons, collapse_spaces_cons.
  intros [-> Hd]%orb_false_iff. by rewrite IH.
Qed.

(** X4: step 1 finds every boundary in one pass.  Its four substitutions
    change nothing when they are applied again to their own result, and
    nothing when they are applied to a token of the boundary splitter: no
    token holds a lower-case letter before an upper-case one, an upper-case
    letter before an upper-case and a lower-case one, a letter before a
    digit or a digit before a letter. *)
Theorem step1_leaves_no_boundary (text : str) :
  temp_processed (temp_processed text) = temp_processed text ∧
  Forall (λ t, no_boundary t ∧ temp_processed t = t) (split_boundaries text).
Proof.
  split.
  - apply temp_processed_id, no_boundary_temp_processed.
  - eapply Forall_impl; [apply split_boundaries_no_boundary|].
    intros t Ht. split; [done|by apply temp_processed_id].
Qed.

(** X5: the result is the tokens of the boundary splitter in their order,
    each replaced by its segments, with one space between every two words;
    the segments of a token put together are the token.  The word list cuts
    tokens further and never joins or reorders them. *)
Theorem result_is_tokens_cut_further (kb : gset str) (text : str) :
  ∃ segss,
    Forall2 (λ t segs, segment kb t = Some segs ∧ concat segs = t)
      (split_boundaries text) segss ∧
    separate_words_enhanced kb text = Some (join_space (concat segss)).
Proof.
  destruct (separate_words_enhanced_tokens kb text) as (segss & Hall & Hout & _).
  exists segss. split; [|done].
  eapply Forall2_impl; [done|]. intros t segs Hseg. split; [done|].
  destruct (segment_total kb t) as (segs' & Hseg' & Hcat & _).
  congruence.
Qed.

(** ** A second pass *)

Section Again.

Context (kb : gset str).

Lemma slice_drop (part : str) pos e :
  slice (drop pos part) 0 e = slice part pos (pos + e).
Proof.
  unfold slice. rewrite drop_0. f_equal. lia.
Qed.

(** The pieces of the loop: known words, and behind them at most the rest
    that the [break] leaves, which starts with no known word. *)
Lemma while_loop_pieces part fuel : ∀ st subs,
  current_pos st ≤ length part →
  while_loop kb fuel part st = Some subs →
  ∃ ws tl, subs = segmented_sub_parts st ++ ws ++ tl ∧
           Forall (λ w, known kb w = true) ws ∧
           Forall (λ r, r ≠ [] ∧ no_known_prefix kb r) tl.
Proof.
  induction fuel as [|fuel IH]; intros st subs Hpos Hrun.
  - cbn in Hrun. case_bool_decide; [done|]. injection Hrun as <-.
    exists [], []. by rewrite app_nil_r.
  - destruct (decide (current_pos st < length part)) as [Hlt|Hge].
    2:{ rewrite while_loop_done in Hrun by done. injection Hrun as <-.
        exists [], []. by rewrite app_nil_r. }
    rewrite while_loop_round in Hrun by done.
    pose proof (while_body_spec kb part st Hpos) as Hspec.
    destruct (while_body kb part st) as [st'|st'].
    + destruct Hspec as (He & Hsegs & Hk & _).
      destruct (IH st' subs) as (ws & tl & -> & Hws & Htl); [lia|done|].
      eexists (_ :: ws), tl. rewrite Hsegs, <-app_assoc.
      split_and!; [done| |done]. by constructor.
    + destruct Hspec as (_ & Hsegs & Hnone). injection Hrun as <-.
      exists [], [drop (current_pos st) part]. rewrite Hsegs.
      split_and!; [done|done|]. repeat constructor.
      * intros Hnil. apply (f_equal length) in Hnil.
        rewrite length_drop in Hnil. cbn in Hnil. lia.
      * intros e He. rewrite length_drop in He. rewrite slice_drop.
        apply known_false, Hnone. lia.
Qed.

Lemma settled_known w : w ≠ [] → known kb w = true → settled kb w.
Proof. intros Hne Hk. split; [done|]. unfold segment. by rewrite Hk. Qed.

Lemma settled_no_known_prefix r : r ≠ [] → no_known_prefix kb r → settled kb r.
Proof.
  intros Hne Hr. split; [done|].
  apply (segment_single kb r [r]); [|cbn; lia].
  destruct r as [|c r]; [done|]. unfold scan. cbn [length].
  rewrite while_loop_miss; [done|cbn; lia|]. intros e He. by apply Hr.
Qed.

(** Every segment of a token is a word the loop takes as it is. *)
Lemma segment_settled t segs :
  t ≠ [] → segment kb t = Some segs → Forall (settled kb) segs.
Proof.
  intros Hne Hseg.
  destruct (segment_total kb t) as (segs' & Hseg' & _ & _ & Hsolid).
  assert (segs' = segs) as -> by congruence. specialize (Hsolid Hne).
  destruct (scan_total kb t) as (subs & Hscan & _).
  rewrite (segment_unfold _ _ _ Hscan) in Hseg.
  assert (segs = [t] → Forall (settled kb) segs) as Hself.
  { intros ->. by repeat constructor. }
  destruct (known kb t); [apply Hself; congruence|].
  destruct (bool_decide (1 < length subs));
    [injection Hseg as <-|apply Hself; congruence].
  clear Hself Hseg'.
  destruct (while_loop_pieces t (length t) (ScanState 0 []) subs)
    as (ws & tl & Hsubs & Hws & Htl); [cbn; lia|done|].
  cbn in Hsubs. subst subs. apply Forall_app in Hsolid as [Hws' Htl'].
  apply Forall_app. split.
  - rewrite Forall_forall in Hws, Hws'. apply Forall_forall. intros w Hw.
    apply settled_known; auto.
  - eapply Forall_impl; [exact Htl|]. intros r [Hr1 Hr2].
    by apply settled_no_known_prefix.
Qed.

Lemma for_parts_settled ws : ∀ final_parts,
  Forall (settled kb) ws → for_parts kb ws final_parts = Some (final_parts ++ ws).
Proof.
  induction ws as [|w ws IH]; intros acc Hws; [by rewrite app_nil_r|].
  apply Forall_cons in Hws as [[Hne Hseg] Hws]. cbn [for_parts].
  rewrite bool_decide_eq_false_2, Hseg by done. cbn.
  rewrite IH by done. by rewrite <-app_assoc.
Qed.

End Again.

Lemma split_space_word w : " " ∉ w → split_space w = [w].
Proof.
  induction w as [|c w IH]; [done|]. intros [Hc Hw]%not_elem_of_cons.
  rewrite split_space_cons, bool_decide_eq_false_2, IH by congruence. done.
Qed.

Lemma split_space_app_space w s :
  " " ∉ w → split_space (w ++ " " :: s) = w :: split_space s.
Proof.
  induction w as [|c w IH]; [done|]. intros [Hc Hw]%not_elem_of_cons.
  cbn [app]. rewrite split_space_cons, bool_decide_eq_false_2, IH by congruence.
  done.
Qed.

Lemma split_space_join_space ws :
  Forall solid ws → ws ≠ [] → split_space (join_space ws) = ws.
Proof.
  induction 1 as [|w ws [Hne Hw] Hws IH]; [done|]. intros _.
  destruct ws as [|w' ws]; [by apply split_space_word|].
  rewrite join_space_cons, split_space_app_space, IH by done. done.
Qed.

Section Joined.

Context (behind : ascii → bool) (ahead : str → bool).
Context `{!SpaceBlind behind ahead}.

Lemma fires_app_space s t : ∀ prev,
  fires behind ahead prev s = false → fires behind ahead None t = false →
  fires behind ahead prev (s ++ " " :: t) = false.
Proof.
  induction s as [|c s IH]; intros prev Hs Ht; cbn [app].
  - rewrite fires_space_head. revert Ht.
    apply fires_weaker; [done|]. apply (weaker_space behind ahead). exact _.
  - rewrite fires_cons in *. apply orb_false_iff in Hs as [Hhere Hrest].
    apply orb_false_iff. split; [|by apply IH].
    revert Hhere. apply fires_here_weaker; [apply weaker_refl|].
    destruct s as [|d s]; cbn [app].
    + by rewrite ahead_before_space.
    + by rewrite (ahead_head c (d :: s ++ " " :: t) (d :: s)).
Qed.

Lemma fires_join_space_all ws :
  Forall (λ w, fires behind ahead None w = false) ws →
  fires behind ahead None (join_space ws) = false.
Proof.
  induction 1 as [|w ws Hw Hws IH]; [done|]. destruct ws as [|w' ws]; [done|].
  rewrite join_space_cons by done. by apply fires_app_space.
Qed.

Lemma fires_concat ws :
  fires behind ahead None (concat ws) = false →
  Forall (λ w, fires behind ahead None w = false) ws.
Proof.
  induction ws as [|w ws IH]; [constructor|]. cbn [concat]. intros Hf.
  constructor; [by apply fires_prefix in Hf|].
  apply IH. by apply fires_suffix in Hf.
Qed.

End Joined.

Lemma no_boundary_pieces ws : no_boundary (concat ws) → Forall no_boundary ws.
Proof.
  intros (H1 & H2 & H3 & H4).
  apply fires_concat in H1, H2, H3, H4; try apply _.
  rewrite Forall_forall in H1, H2, H3, H4. apply Forall_forall.
  intros w Hw. split_and!; auto.
Qed.

Lemma no_boundary_join_space_all ws :
  Forall no_boundary ws → no_boundary (join_space ws).
Proof.
  intros Hws.
  split_and!; apply fires_join_space_all; try apply _;
    (eapply Forall_impl; [exact Hws|]); by intros w (H1 & H2 & H3 & H4).
Qed.

(** A text of settled words with one space between every two, in which no
    pattern of step 1 matches and which [strip] leaves alone, comes back as
    it is. *)
Lemma separate_words_enhanced_fixed (kb : gset str) (ws : list str) :
  Forall solid ws → Forall (settled kb) ws →
  no_boundary (join_space ws) → strip (join_space ws) = join_space ws →
  separate_words_enhanced kb (join_space ws) = Some (join_space ws).
Proof.
  intros Hsolid Hsettled Hnb Hstrip. unfold separate_words_enhanced.
  case_bool_decide as Hout; [by rewrite Hout|].
  assert (ws ≠ []) as Hne by (by intros ->).
  unfold initial_parts.
  rewrite temp_processed_id, collapse_spaces_id, Hstrip
    by (done || by apply double_space_join_space).
  rewrite split_space_join_space, for_parts_settled by done.
  cbn -[strip]. by rewrite Hstrip.
Qed.

(** The result is such a text. *)
Lemma separate_words_enhanced_stable (kb : gset str) (text : str) :
  ∃ ws, separate_words_enhanced kb text = Some (join_space ws) ∧
        Forall solid ws ∧ Forall (settled kb) ws ∧
        no_boundary (join_space ws) ∧ strip (join_space ws) = join_space ws.
Proof.
  destruct (separate_words_enhanced_tokens kb text)
    as (segss & Hall & Hout & Hsolid & Hcat).
  pose proof (split_boundaries_no_boundary text) as Hnb.
  assert (Forall (λ t, t ≠ []) (split_boundaries text)) as Hne.
  { apply Forall_forall. by intros t [? _]%list_elem_of_filter. }
  assert (Forall (settled kb) (concat segss) ∧
          Forall no_boundary (concat segss)) as [Hsettled Hnbs].
  { clear Hout Hsolid Hcat.
    induction Hall as [|t segs ts segss Hseg Hall IH]; [by split; constructor|].
    apply Forall_cons in Hnb as [Hnbt Hnb], Hne as [Hnet Hne].
    destruct (IH Hnb Hne) as [IH1 IH2]. cbn [concat].
    split; apply Forall_app; (split; [|done]).
    - by apply (segment_settled kb t).
    - apply no_boundary_pieces.
      destruct (segment_total kb t) as (segs' & Hseg' & Hcat & _).
      assert (segs' = segs) as -> by congruence. by rewrite Hcat. }
  exists (concat segss). split_and!; [done..| |].
  - by apply no_boundary_join_space_all.
  - apply strip_join_space_solid; [done|].
    rewrite Hcat. apply strip_remove_spaces_cleaned.
Qed.

(** X1: the function is idempotent.  Its result, given to it again with
    the same word list, comes back unchanged. *)
Theorem separate_words_enhanced_idempotent (kb : gset str) (text out : str) :
  separate_words_enhanced kb text = Some out →
  separate_words_enhanced kb out = Some out.
Proof.
  intros Hout.
  destruct (separate_words_enhanced_stable kb text)
    as (ws & Hws & Hsolid & Hsettled & Hnb & Hstrip).
  rewrite Hws in Hout. injection Hout as <-.
  by apply separate_words_enhanced_fixed.
Qed.

Lemma separate_words_enhanced_idempotent_witness :
  separate_words_enhanced (words ["gold"; "fish"]%string) (py "gold fish 2 xyz")
  = Some (py "gold fish 2 xyz").
Proof.
  apply (separate_words_enhanced_idempotent _ (py " goldfish2xyz ")).
  reflexivity.
Defined.

(** ** Blank texts *)

Lemma remove_spaces_nil_head_ok s :
  head_ok s = true → remove_spaces s = [] → s = [].
Proof.
  destruct s as [|c s]; [done|]. cbn [head_ok]. intros Hc.
  rewrite remove_spaces_cons, decide_True; [done|]. by intros ->.
Qed.

Lemma join_space_nil ws : Forall solid ws → join_space ws = [] → ws = [].
Proof.
  destruct 1 as [|w ws [Hw _] Hws]; [done|].
  destruct w as [|c w]; [done|]. by destruct ws.
Qed.

(** X3: the result is the empty string exactly when the text is empty or
    nothing but white space, whatever the word list holds. *)
Theorem empty_result_iff_blank (kb : gset str) (text : str) :
  separate_words_enhanced kb text = Some [] ↔ strip text = [].
Proof.
  destruct (separate_words_enhanced_joined kb text) as (ws & Hout & Hsolid & Hcat).
  rewrite Hout. split.
  - intros [= Hnil]. apply join_space_nil in Hnil as ->; [|done].
    cbn in Hcat. symmetry in Hcat. rewrite remove_spaces_cleaned in Hcat.
    apply remove_spaces_nil_head_ok; [apply head_ok_strip|done].
  - intros Hblank. rewrite remove_spaces_cleaned, Hblank in Hcat.
    destruct ws as [|w ws]; [done|].
    apply Forall_cons in Hsolid as [[Hw _] _]. by destruct w.
Qed.

(** ** The early return for known words *)

(** X6: the scan of a known word gives the word back as its one piece,
    so that the early return of lines 78-80 changes no result: it saves the
    scan. *)
Theorem known_word_scans_to_itself (kb : gset str) (part : str) :
  part ≠ [] → lower part ∈ kb → scan kb part = Some [part].
Proof.
  intros Hne Hknown. destruct part as [|c part]; [done|].
  unfold scan. cbn [length]. rewrite while_loop_round by (cbn; lia).
  pose proof (while_body_spec kb (c :: part) (ScanState 0 []) ltac:(cbn; lia))
    as Hspec.
  assert (slice (c :: part) 0 (length (c :: part)) = c :: part) as Hall
    by (unfold slice; rewrite drop_0; apply take_ge; lia).
  destruct (while_body kb (c :: part) (ScanState 0 [])) as [[e subs]|st'];
    cbn [current_pos segmented_sub_parts app] in Hspec.
  - destruct Hspec as (He & -> & _ & Hlater). cbn [length] in He, Hlater.
    assert (e = S (length part)) as ->.
    { destruct (decide (e = S (length part))) as [|Hlt]; [done|].
      specialize (Hlater (S (length part)) ltac:(lia)).
      cbn [length] in Hall. rewrite Hall in Hlater.
      by apply known_false in Hlater. }
    rewrite while_loop_done by (cbn; lia). cbn [segmented_sub_parts].
    cbn [length] in Hall. by rewrite Hall.
  - destruct Hspec as (_ & _ & Hnone).
    specialize (Hnone (length (c :: part)) ltac:(cbn; lia)).
    rewrite Hall in Hnone. by apply known_false in Hnone.
Qed.

Lemma known_word_scans_to_itself_witness :
  scan (words ["the"; "them"; "hem"]%string) (py "Them") = Some [py "Them"].
Proof.
  apply known_word_scans_to_itself; [done|]. by_evaluation.
Defined.

(** ** Upper and lower case *)

Lemma lower_char_idemp c : lower_char (lower_char c) = lower_char c.
Proof. destruct c as [[] [] [] [] [] [] [] []]; reflexivity. Qed.

Lemma lower_idemp s : lower (lower s) = lower s.
Proof.
  induction s as [|c s IH]; [done|].
  change (lower_char (lower_char c) :: lower (lower s) = lower_char c :: lower s).
  by rewrite lower_char_idemp, IH.
Qed.

Lemma length_lower s : length (lower s) = length s.
Proof. apply length_map. Qed.

Lemma lower_drop s n : lower (drop n s) = drop n (lower s).
Proof. unfold lower. by rewrite skipn_map. Qed.

Lemma lower_slice s a b : lower (slice s a b) = slice (lower s) a b.
Proof. unfold slice, lower. by rewrite skipn_map, firstn_map. Qed.

Section Case.

Context (kb : gset str).

Lemma known_lower s : known kb (lower s) = known kb s.
Proof. unfold known. by rewrite lower_idemp. Qed.

Lemma probe_lower part pos best i :
  probe kb (lower part) pos (lower_best best) i
  = lower_best (probe kb part pos best i).
Proof.
  unfold probe. rewrite <-lower_slice, known_lower.
  destruct (known kb (slice part pos (i + 1))); [|done].
  cbn [lower_best best_match_word]. rewrite !length_lower.
  by case_bool_decide.
Qed.

Lemma foldl_probe_lower part pos l : ∀ best,
  foldl (probe kb (lower part) pos) (lower_best best) l
  = lower_best (foldl (probe kb part pos) best l).
Proof.
  induction l as [|i l IH]; intros best; [done|].
  cbn [foldl]. by rewrite probe_lower, IH.
Qed.

Lemma longest_match_lower part pos :
  longest_match kb (lower part) pos = lower_best (longest_match kb part pos).
Proof.
  unfold longest_match. rewrite length_lower.
  apply (foldl_probe_lower part pos _ (BestMatch None [])).
Qed.

Lemma while_body_lower part st :
  while_body kb (lower part) (lower_state st)
  = lower_flow (while_body kb part st).
Proof.
  unfold while_body. cbn [lower_state current_pos segmented_sub_parts].
  rewrite longest_match_lower. cbn [lower_best best_match_end best_match_word].
  destruct (best_match_end _); cbn [lower_flow]; unfold lower_state;
    cbn [current_pos segmented_sub_parts];
    rewrite map_app; cbn [map]; by rewrite ?lower_drop.
Qed.

Lemma while_loop_lower part fuel : ∀ st,
  while_loop kb fuel (lower part) (lower_state st)
  = map lower <$> while_loop kb fuel part st.
Proof.
  induction fuel as [|fuel IH]; intros st; cbn [while_loop];
    rewrite length_lower; cbn [lower_state current_pos];
    case_bool_decide; [done|done| |done].
  rewrite while_body_lower.
  destruct (while_body kb part st) as [st'|st']; cbn [lower_flow]; [apply IH|done].
Qed.

Lemma scan_lower part : scan kb (lower part) = map lower <$> scan kb part.
Proof.
  unfold scan. rewrite length_lower. apply (while_loop_lower _ _ (ScanState 0 [])).
Qed.

Lemma segment_lower part :
  segment kb (lower part) = map lower <$> segment kb part.
Proof.
  destruct (scan_total kb part) as (subs & Hscan & _).
  assert (scan kb (lower part) = Some (map lower subs)) as Hscan'
    by (by rewrite scan_lower, Hscan).
  rewrite (segment_unfold _ _ _ Hscan), (segment_unfold _ _ _ Hscan').
  rewrite known_lower, length_map.
  destruct (known kb part); [done|]. by case_bool_decide.
Qed.

End Case.

(** X2: for parts made of characters below 256, where [str.lower()] folds
    every character by itself, the segmenter is blind to case.  The segments
    of the case-folded part are the case-folded segments of the part; so two
    such parts that are the same up to case are cut at the same places. *)
Theorem segment_case_insensitive (kb : gset str) (t : str) :
  segment kb (lower t) = map lower <$> segment kb t ∧
  ∀ t', lower t' = lower t →
        map length <$> segment kb t' = map length <$> segment kb t.
Proof.
  split; [apply segment_lower|]. intros t' Ht'.
  pose proof (segment_lower kb t) as Ht. pose proof (segment_lower kb t') as Hl.
  rewrite Ht' in Hl. rewrite Ht in Hl.
  destruct (segment kb t) as [segs|], (segment kb t') as [segs'|];
    cbn in *; try done.
  injection Hl as Hl. f_equal. apply (f_equal (map length)) in Hl.
  rewrite !map_map in Hl.
  rewrite (map_ext _ length) in Hl by apply length_lower.
  rewrite (map_ext (λ x, length (lower x)) length) in Hl by apply length_lower.
  done.
Qed.

Lemma segment_case_insensitive_witness :
  map length <$> segment (words ["gold"; "fish"]%string) (py "GOLDFISHXYZ")
  = Some [4; 4; 3].
Proof.
  rewrite (proj2 (segment_case_insensitive (words ["gold"; "fish"]%string)
                    (py "goldfishxyz")) (py "GOLDFISHXYZ") eq_refl).
  reflexivity.
Defined.

(** ** The word list loader *)

Lemma is_space_lower_char c : is_space (lower_char c) = is_space c.
Proof. destruct c as [[] [] [] [] [] [] [] []]; reflexivity. Qed.

Lemma is_linebreak_space c : is_linebreak c = true → is_space c = true.
Proof. destruct c as [[] [] [] [] [] [] [] []]; done. Qed.

Lemma lower_lstrip s : lower (lstrip s) = lstrip (lower s).
Proof.
  induction s as [|c s IH]; [done|].
  change (lower (c :: s)) with (lower_char c :: lower s).
  cbn [lstrip]. rewrite is_space_lower_char.
  by destruct (is_space c).
Qed.

Lemma lower_reverse s : lower (reverse s) = reverse (lower s).
Proof.
  induction s as [|c s IH]; [done|].
  change (lower (c :: s)) with (lower_char c :: lower s).
  rewrite !reverse_cons, <-IH. unfold lower. by rewrite map_app.
Qed.

Lemma lower_strip s : lower (strip s) = strip (lower s).
Proof.
  unfold strip, rstrip.
  by rewrite lower_reverse, lower_lstrip, lower_reverse, lower_lstrip.
Qed.

Lemma lower_nil_inv s : lower s = [] → s = [].
Proof. by destruct s. Qed.

Lemma clean_word_lower_strip line :
  strip line ≠ [] → clean_word (lower (strip line)).
Proof.
  intros Hne. split_and!.
  - by intros ?%lower_nil_inv.
  - by rewrite <-lower_strip, strip_idemp.
  - apply lower_idemp.
Qed.

Lemma elem_of_words w l : w ∈ words l ↔ w ∈ py <$> l.
Proof. unfold words. apply elem_of_list_to_set. Qed.

Lemma fallback_wordlist_clean w : w ∈ fallback_wordlist → clean_word w.
Proof.
  unfold fallback_wordlist. rewrite elem_of_words. revert w.
  apply Forall_forall. repeat (constructor; [by split_and!|]). constructor.
Qed.

(** X11: whatever the download ends in, every word of the list the loader
    returns is not empty, has no white space at its ends and is its own
    case-folded form: the shape the probes of the segmenter, which are
    case-folded pieces of tokens, are compared with. *)
Theorem loaded_words_are_clean (response : fetched) (w : str) :
  w ∈ load_online_wordlist response → clean_word w.
Proof.
  destruct response as [text| |]; [|apply fallback_wordlist_clean..].
  unfold load_online_wordlist. rewrite elem_of_list_to_set, list_elem_of_In.
  intros (line & <- & Hline)%in_map_iff.
  apply list_elem_of_In, list_elem_of_filter in Hline as [Hne _].
  by apply clean_word_lower_strip.
Qed.

Lemma loaded_words_are_clean_witness :
  clean_word (py "gold").
Proof.
  apply (loaded_words_are_clean (Body (py "  Gold "))).
  by_evaluation.
Defined.

Lemma lstrip_nil_iff s : lstrip s = [] ↔ Forall (λ c, is_space c = true) s.
Proof.
  induction s as [|c s IH]; [by split; [constructor|]|].
  cbn [lstrip]. rewrite Forall_cons.
  destruct (is_space c); [|by split; [|intros []]].
  rewrite IH. tauto.
Qed.

(** A blank string: empty, or white space only. *)
Lemma strip_nil_iff s : strip s = [] ↔ Forall (λ c, is_space c = true) s.
Proof.
  rewrite <-lstrip_nil_iff. split.
  - intros Hs. pose proof (head_ok_lstrip s) as Hh.
    destruct (lstrip s) as [|c t] eqn:Ht; [done|].
    unfold strip in Hs. rewrite Ht in Hs. cbn [head_ok] in Hh.
    by rewrite rstrip_cons_head_ok in Hs by by apply negb_true_iff.
  - intros Hs. unfold strip. by rewrite Hs.
Qed.

Lemma splitlines_from_blank n : ∀ text cur,
  length text ≤ n →
  Forall (λ line, Forall (λ c, is_space c = true) line) (splitlines_from cur text) ↔
  Forall (λ c, is_space c = true) cur ∧ Forall (λ c, is_space c = true) text.
Proof.
  assert (Forall (λ c, is_space c = true) []) as Hnil by constructor.
  assert (is_space "013" = true ∧ is_space "010" = true) as [Hcr Hlf] by done.
  induction n as [|n IH]; intros text cur Hn.
  { destruct text; [|cbn in Hn; lia]. cbn [splitlines_from].
    case_bool_decide as Hcur.
    - subst cur. split; [done|constructor].
    - rewrite Forall_singleton. tauto. }
  destruct text as [|c text]; [apply IH; cbn; lia|].
  cbn [length] in Hn. cbn [splitlines_from].
  destruct (is_linebreak c) eqn:Hc.
  - apply is_linebreak_space in Hc. rewrite !Forall_cons.
    destruct text as [|c' text'].
    + rewrite IH by (cbn; lia). tauto.
    + cbn [length] in Hn.
      destruct (bool_decide_reflect (c = "013")) as [->|Hc1]; cbn [andb];
        [destruct (bool_decide_reflect (c' = "010")) as [->|Hc2]|];
        rewrite IH, ?Forall_cons by (cbn [length]; lia); tauto.
  - rewrite IH, Forall_app, Forall_singleton, Forall_cons by lia. tauto.
Qed.

Lemma filter_blank_lines (lines : list str) :
  Forall (λ line, strip line = []) lines →
  filter (λ word, strip word ≠ []) lines = [].
Proof.
  induction 1 as [|line lines Hl Hls IH]; [done|].
  by rewrite filter_cons_False by (by intros []).
Qed.

(** X12: when the body comes, the built-in list is not used, whatever the
    body holds: a body that is empty or white space only gives the empty
    word list, and every other body a list that is not empty. *)
Theorem blank_body_gives_empty_wordlist (text : str) :
  load_online_wordlist (Body text) = ∅ ↔ strip text = [].
Proof.
  unfold load_online_wordlist, splitlines.
  pose proof (splitlines_from_blank (length text) text [] ltac:(lia)) as Hlines.
  rewrite strip_nil_iff. split.
  - intros Hempty. apply Hlines. apply Forall_forall. intros line Hline.
    apply strip_nil_iff. destruct (decide (strip line = [])) as [|Hne]; [done|].
    exfalso. apply (not_elem_of_empty (C:=gset str) (lower (strip line))).
    rewrite <-Hempty, elem_of_list_to_set, list_elem_of_In.
    apply in_map_iff. exists line. split; [done|].
    by apply list_elem_of_In, list_elem_of_filter.
  - intros Hblank.
    assert (Forall (λ line, Forall (λ c, is_space c = true) line)
              (splitlines_from [] text)) as Hall by (apply Hlines; by split).
    rewrite filter_blank_lines; [done|].
    eapply Forall_impl; [exact Hall|]. intros line Hl. by apply strip_nil_iff.
Qed.

(** ** The title, processed twice *)

(** What the upper-case form [C] of [c] keeps of [c], when it is one
    character of the range. *)
Lemma upper_char_facts c C :
  upper_char c = [N_of_ascii C] →
  is_lower C = false ∧ (is_upper C = true → is_lower c = true ∨ C = c) ∧
  is_alpha C = is_alpha c ∧ is_digit C = is_digit c ∧
  lower_char C = lower_char c ∧ is_space C = is_space c ∧
  (C = " " → c = " ") ∧ upper_char C = [N_of_ascii C].
Proof.
  intros Hup.
  assert (C = ascii_of_N (hd 0%N (upper_char c))) as HC
    by (by rewrite Hup; cbn; rewrite ascii_N_embedding).
  rewrite HC in Hup |- *. clear HC.
  destruct c as [[] [] [] [] [] [] [] []];
    first
      [ discriminate Hup
      | split_and!; [reflexivity| |reflexivity..| |reflexivity];
        first [by intros [=] | by intros; left | by intros; right] ].
Qed.

Lemma settled_case (kb : gset str) (t t' : str) :
  lower t' = lower t → settled kb t → settled kb t'.
Proof.
  intros Hl [Hne Hseg]. split.
  { intros ->. destruct t; [done|discriminate Hl]. }
  destruct (segment_total kb t') as (segs & Hseg' & Hcat & _).
  pose proof (segment_lower kb t) as H1. pose proof (segment_lower kb t') as H2.
  rewrite Hl, H1, Hseg, Hseg' in H2. cbn in H2. injection H2 as H2.
  destruct segs as [|w [|w' segs]]; [done| |done].
  cbn in Hcat. rewrite app_nil_r in Hcat. by subst w.
Qed.

Lemma join_space_first c r ws :
  join_space ((c :: r) :: ws) = c :: join_space (r :: ws).
Proof. by destruct ws. Qed.

Lemma ahead2_ahead1 cls1 cls2 s : ahead1 cls1 s = false → ahead2 cls1 cls2 s = false.
Proof. destruct s as [|c1 [|c2 s]]; cbn; [done..|]. by intros ->. Qed.

(** The first character put in upper case brings no boundary. *)
Lemma no_boundary_capital c C rest :
  upper_char c = [N_of_ascii C] →
  no_boundary (c :: rest) → no_boundary (C :: rest).
Proof.
  intros (Hlow & Hup & Halpha & Hdigit & _)%upper_char_facts.
  unfold no_boundary. rewrite !fires_cons. cbn [orb].
  destruct rest as [|c1 rest]; [done|]. rewrite !fires_cons.
  rewrite Hlow, Halpha, Hdigit. cbn [andb orb].
  intros (H1 & H2 & H3 & H4). split_and!; [|  |done..].
  - by apply orb_false_iff in H1 as [_ H1].
  - apply orb_false_iff in H1 as [H1 _], H2 as [H2 H2'].
    apply orb_false_iff. split; [|done].
    destruct (is_upper C) eqn:HC; [|done]. cbn [andb].
    destruct (Hup eq_refl) as [Hc| ->].
    + rewrite Hc in H1. by apply ahead2_ahead1.
    + by rewrite HC in H2.
Qed.

Lemma strip_capital c C rest :
  is_space C = is_space c →
  strip (c :: rest) = c :: rest → strip (C :: rest) = C :: rest.
Proof.
  intros Hsp [Hl Hr]%strip_fixed_inv. cbn [head_ok] in Hl.
  apply strip_fixed; [cbn [head_ok]; by rewrite Hsp|].
  rewrite reverse_cons in *.
  destruct (reverse rest) as [|d t]; [cbn [app head_ok]; by rewrite Hsp|done].
Qed.

(** X13: for a title made of characters below 256, the script run on its
    own result changes the title no more.  When the first character of the
    separated title has an upper-case form of one character below 256 (every
    character below 256 but the sharp s, the micro sign and y with
    diaeresis), the new title of lines 148-149 is that title with the first
    character in upper case, and processing the new title gives it back. *)
Theorem title_processed_twice (kb : gset str) (text : str) (c C : ascii) (rest : str) :
  separate_words_enhanced kb text = Some (c :: rest) →
  upper_char c = [N_of_ascii C] →
  processed_title kb text = Some (code_points (C :: rest)) ∧
  processed_title kb (C :: rest) = Some (code_points (C :: rest)).
Proof.
  intros Hout Hup.
  pose proof (upper_char_facts c C Hup)
    as (_ & _ & _ & _ & Hlower & Hspace & Hsp & HupC).
  assert (capitalized (C :: rest) = code_points (C :: rest)) as HcapC
    by (cbn [capitalized]; by rewrite HupC).
  assert (capitalized (c :: rest) = code_points (C :: rest)) as Hcapc
    by (cbn [capitalized]; by rewrite Hup).
  unfold processed_title. rewrite Hout.
  split; [exact (f_equal Some Hcapc)|].
  enough (separate_words_enhanced kb (C :: rest) = Some (C :: rest)) as Hfix
    by (rewrite Hfix; exact (f_equal Some HcapC)).
  destruct (separate_words_enhanced_stable kb text)
    as (ws & Hws & Hsolid' & Hsettled & Hnb & Hstrip).
  rewrite Hout in Hws. injection Hws as Hws.
  destruct ws as [|[|c' r] ws]; [done|by apply Forall_cons in Hsolid' as [[? _] _]|].
  rewrite join_space_first in Hws.
  remember (join_space (r :: ws)) as tl eqn:Htl.
  injection Hws as Hc' Hrest. subst c' rest tl.
  apply Forall_cons in Hsolid' as [[_ Hw] Hsolid'], Hsettled as [Hset Hsettled].
  apply not_elem_of_cons in Hw as [Hc Hr].
  rewrite <-(join_space_first C).
  apply separate_words_enhanced_fixed.
  - constructor; [|done]. split; [done|]. apply not_elem_of_cons. split; [|done].
    intros HC. apply Hc. symmetry. by apply Hsp.
  - constructor; [|done]. apply (settled_case kb (c :: r)); [|done].
    change (lower_char C :: lower r = lower_char c :: lower r). by rewrite Hlower.
  - rewrite join_space_first in Hnb |- *. by apply (no_boundary_capital c).
  - rewrite join_space_first in Hstrip |- *. by apply (strip_capital c).
Qed.

Lemma title_processed_twice_witness :
  processed_title (words ["gold"; "fish"]%string) (py "Gold fish")
  = Some (code_points (py "Gold fish")).
Proof.
  refine (proj2 (title_processed_twice (words ["gold"; "fish"]%string)
                   (py "goldfish") "g" "G" (py "old fish") _ _)); reflexivity.
Defined.

(** ** White space around the text *)

Lemma is_space_no_class c :
  is_space c = true →
  is_lower c = false ∧ is_upper c = false ∧ is_alpha c = false ∧ is_digit c = false.
Proof. destruct c as [[] [] [] [] [] [] [] []]; done. Qed.

Lemma ahead1_white_blind behind cls :
  (∀ c, is_space c = true → behind c = false) →
  (∀ c, is_space c = true → cls c = false) →
  WhiteBlind behind (ahead1 cls).
Proof. intros Hb Hc. split; [done|by intros; apply Hc|done]. Qed.

Lemma ahead2_white_blind behind cls1 cls2 :
  (∀ c, is_space c = true → behind c = false) →
  (∀ c, is_space c = true → cls1 c = false) →
  (∀ c, is_space c = true → cls2 c = false) →
  WhiteBlind behind (ahead2 cls1 cls2).
Proof.
  intros Hb Hc1 Hc2. split; [done| |].
  - intros c [|c2 s] Hc; cbn; [done|by rewrite Hc1].
  - intros c d s Hd. cbn. by rewrite (Hc2 d), andb_false_r.
Qed.

#[global] Instance lower_upper_white : WhiteBlind is_lower (ahead1 is_upper).
Proof. apply ahead1_white_blind; intros c Hc; by apply is_space_no_class in Hc as (?&?&?&?). Qed.
#[global] Instance acronym_white : WhiteBlind is_upper (ahead2 is_upper is_lower).
Proof. apply ahead2_white_blind; intros c Hc; by apply is_space_no_class in Hc as (?&?&?&?). Qed.
#[global] Instance alpha_digit_white : WhiteBlind is_alpha (ahead1 is_digit).
Proof. apply ahead1_white_blind; intros c Hc; by apply is_space_no_class in Hc as (?&?&?&?). Qed.
#[global] Instance digit_alpha_white : WhiteBlind is_digit (ahead1 is_alpha).
Proof. apply ahead1_white_blind; intros c Hc; by apply is_space_no_class in Hc as (?&?&?&?). Qed.

Section White.

Context (behind : ascii → bool) (ahead : str → bool).
Context `{!SpaceBlind behind ahead, !WhiteBlind behind ahead}.

(** The character before the text can start no match. *)
Definition dull (prev : option ascii) : Prop :=
  match prev with Some p => behind p = false | None => True end.

Lemma sub_lookaround_blank prev y :
  blank y → sub_lookaround behind ahead prev y = y.
Proof.
  intros Hy. revert prev.
  induction Hy as [|c y Hc Hy IH]; intros prev; [done|].
  cbn [sub_lookaround]. rewrite (ahead_white c y Hc), IH.
  by destruct prev; rewrite ?andb_false_r.
Qed.

Lemma sub_lookaround_dull prev s :
  dull prev → sub_lookaround behind ahead prev s = sub_lookaround behind ahead None s.
Proof.
  destruct s as [|c s]; [done|]. destruct prev as [p|]; [|done].
  cbn [dull sub_lookaround]. by intros ->.
Qed.

Lemma sub_lookaround_blank_app x s prev :
  blank x → dull prev →
  sub_lookaround behind ahead prev (x ++ s) = x ++ sub_lookaround behind ahead None s.
Proof.
  intros Hx. revert prev.
  induction Hx as [|c x Hc Hx IH]; intros prev Hprev; cbn [app].
  - by apply sub_lookaround_dull.
  - cbn [sub_lookaround]. rewrite (ahead_white c _ Hc).
    rewrite (IH (Some c)) by (by apply behind_white).
    by destruct prev; rewrite ?andb_false_r.
Qed.

Lemma sub_lookaround_app_blank s y : ∀ prev,
  blank y →
  sub_lookaround behind ahead prev (s ++ y) = sub_lookaround behind ahead prev s ++ y.
Proof.
  induction s as [|c s IH]; intros prev Hy; [by apply sub_lookaround_blank|].
  cbn [app sub_lookaround]. rewrite IH by done.
  assert (ahead (c :: s ++ y) = ahead (c :: s)) as ->; [|by rewrite <-app_assoc].
  destruct s as [|d s]; [|by apply ahead_head].
  destruct Hy as [|d y Hd _]; [done|]. by apply ahead_before_white.
Qed.

Lemma sub_lookaround_around x s y :
  blank x → blank y →
  sub_lookaround behind ahead None (x ++ s ++ y)
  = x ++ sub_lookaround behind ahead None s ++ y.
Proof.
  intros Hx Hy. rewrite (sub_lookaround_blank_app x) by done.
  by rewrite sub_lookaround_app_blank.
Qed.

End White.

Lemma temp_processed_around x s y :
  blank x → blank y →
  temp_processed (x ++ s ++ y) = x ++ temp_processed s ++ y.
Proof.
  intros Hx Hy.
  unfold temp_processed, sub_digit_alpha, sub_alpha_digit, sub_acronym,
    sub_lower_upper.
  by rewrite !sub_lookaround_around by (done || apply _).
Qed.

Lemma lstrip_blank_suffix s : ∃ a, s = a ++ lstrip s ∧ blank a.
Proof.
  induction s as [|c s (a & IH & Ha)]; [exists []; split; [done|constructor]|].
  cbn [lstrip]. destruct (is_space c) eqn:Hc.
  - exists (c :: a). split; [cbn [app]; by f_equal|by constructor].
  - exists []. split; [done|constructor].
Qed.

Lemma blank_reverse s : blank s → blank (reverse s).
Proof.
  unfold blank. rewrite !Forall_forall. intros Hs c Hc.
  apply Hs. by apply elem_of_reverse.
Qed.

Lemma strip_blank_infix s : ∃ a b, s = a ++ strip s ++ b ∧ blank a ∧ blank b.
Proof.
  destruct (lstrip_blank_suffix s) as (a & Ha & Hba).
  destruct (lstrip_blank_suffix (reverse (lstrip s))) as (b & Hb & Hbb).
  exists a, (reverse b). split_and!; [|done|by apply blank_reverse].
  rewrite Ha at 1. f_equal. unfold strip, rstrip.
  rewrite <-reverse_app, <-Hb. by rewrite reverse_involutive.
Qed.

Lemma lstrip_collapse_white c s :
  is_space c = true →
  lstrip (collapse_spaces (c :: s)) = lstrip (collapse_spaces s).
Proof.
  intros Hc. destruct s as [|c' s]; [cbn; by rewrite Hc|].
  rewrite collapse_spaces_cons.
  destruct (_ && _); [done|]. cbn [lstrip]. by rewrite Hc.
Qed.

Lemma lstrip_collapse_blank x s :
  blank x → lstrip (collapse_spaces (x ++ s)) = lstrip (collapse_spaces s).
Proof.
  induction 1 as [|c x Hc Hx IH]; [done|]. cbn [app].
  by rewrite lstrip_collapse_white.
Qed.

Lemma rstrip_snoc_white s c : is_space c = true → rstrip (s ++ [c]) = rstrip s.
Proof.
  intros Hc. unfold rstrip. rewrite reverse_snoc. cbn [lstrip]. by rewrite Hc.
Qed.

Lemma rstrip_cons c s :
  rstrip (c :: s) =
    match rstrip s with
    | [] => if is_space c then [] else [c]
    | r => c :: r
    end.
Proof.
  induction s as [|d s IH] using rev_ind.
  - unfold rstrip. cbn. by destruct (is_space c).
  - destruct (is_space d) eqn:Hd.
    + by rewrite app_comm_cons, !rstrip_snoc_white.
    + unfold rstrip. rewrite app_comm_cons, !reverse_snoc. cbn [lstrip].
      rewrite Hd.
      assert (∀ x : str, reverse (d :: reverse x) = x ++ [d]) as Hrev
        by (intros x; by rewrite reverse_cons, reverse_involutive).
      rewrite !Hrev. by destruct s.
Qed.

Lemma lstrip_rstrip s : lstrip (rstrip s) = rstrip (lstrip s).
Proof.
  induction s as [|c s IH]; [done|]. cbn [lstrip].
  destruct (is_space c) eqn:Hc.
  - rewrite <-IH, rstrip_cons, Hc. destruct (rstrip s); [done|].
    cbn [lstrip]. by rewrite Hc.
  - rewrite rstrip_cons_head_ok by done. cbn [lstrip]. by rewrite Hc.
Qed.

Lemma rstrip_congr_cons c s t : rstrip s = rstrip t → rstrip (c :: s) = rstrip (c :: t).
Proof. intros Hst. by rewrite !rstrip_cons, Hst. Qed.

Lemma rstrip_collapse_snoc s c :
  is_space c = true →
  rstrip (collapse_spaces (s ++ [c])) = rstrip (collapse_spaces s).
Proof.
  intros Hc. induction s as [|d s IH].
  - cbn. unfold rstrip. cbn. by rewrite Hc.
  - destruct s as [|d' s].
    + cbn [app]. rewrite collapse_spaces_cons.
      change (collapse_spaces [c]) with [c].
      change (collapse_spaces [d]) with [d].
      destruct (bool_decide_reflect (d = " ")) as [->|Hd]; cbn [andb];
        [destruct (bool_decide_reflect (c = " ")) as [->|Hc']|];
        [done|by apply (rstrip_snoc_white [_])..].
    + cbn [app] in *. rewrite !collapse_spaces_cons.
      destruct (_ && _); [done|]. by apply rstrip_congr_cons.
Qed.

Lemma rstrip_collapse_blank s y :
  blank y → rstrip (collapse_spaces (s ++ y)) = rstrip (collapse_spaces s).
Proof.
  induction y as [|c y IH] using rev_ind; intros Hy; [by rewrite app_nil_r|].
  unfold blank in Hy. apply Forall_app in Hy as [Hy Hc].
  apply Forall_inv in Hc.
  rewrite app_assoc, rstrip_collapse_snoc by done. by apply IH.
Qed.

Lemma strip_collapse_around x s y :
  blank x → blank y →
  strip (collapse_spaces (x ++ s ++ y)) = strip (collapse_spaces s).
Proof.
  intros Hx Hy. unfold strip.
  rewrite lstrip_collapse_blank by done.
  by rewrite <-!lstrip_rstrip, rstrip_collapse_blank.
Qed.

Lemma cleaned_strip text : cleaned (strip text) = cleaned text.
Proof.
  destruct (strip_blank_infix text) as (a & b & Htext & Ha & Hb).
  unfold cleaned. rewrite Htext at 2.
  by rewrite temp_processed_around, strip_collapse_around.
Qed.

Lemma separate_words_enhanced_blank (kb : gset str) (text : str) :
  strip text = [] → separate_words_enhanced kb text = Some [].
Proof.
  intros Hblank.
  destruct (separate_words_enhanced_joined kb text) as (ws & Hout & Hsolid & Hcat).
  rewrite remove_spaces_cleaned, Hblank in Hcat. rewrite Hout.
  destruct ws as [|w ws]; [done|].
  apply Forall_cons in Hsolid as [[Hw _] _]. by destruct w.
Qed.

(** X7: white space around the text makes no difference: the stripped
    text gives the result of the text. *)
Theorem surrounding_white_space_ignored (kb : gset str) (text : str) :
  separate_words_enhanced kb (strip text) = separate_words_enhanced kb text.
Proof.
  destruct (decide (strip text = [])) as [Hblank|Hne].
  { rewrite Hblank. by rewrite (separate_words_enhanced_blank kb text). }
  assert (text ≠ []) as Hne' by (by intros ->).
  unfold separate_words_enhanced, initial_parts.
  rewrite !bool_decide_eq_false_2 by done.
  fold (cleaned (strip text)) (cleaned text). by rewrite cleaned_strip.
Qed.

(** ** The word list as the probes see it *)

Section SameProbes.

Context (kb kb' : gset str).
Hypothesis same_known : ∀ s, known kb s = known kb' s.

Lemma probe_same part pos best i :
  probe kb part pos best i = probe kb' part pos best i.
Proof. unfold probe. by rewrite same_known. Qed.

Lemma longest_match_same part pos :
  longest_match kb part pos = longest_match kb' part pos.
Proof.
  unfold longest_match. generalize (BestMatch None []).
  induction (seq pos (length part - pos)) as [|i l IH]; intros best; [done|].
  cbn [foldl]. by rewrite probe_same, IH.
Qed.

Lemma while_body_same part st : while_body kb part st = while_body kb' part st.
Proof. unfold while_body. by rewrite longest_match_same. Qed.

Lemma while_loop_same fuel part : ∀ st,
  while_loop kb fuel part st = while_loop kb' fuel part st.
Proof.
  induction fuel as [|fuel IH]; intros st; [done|]. cbn [while_loop].
  rewrite while_body_same. case_bool_decide; [|done].
  by destruct (while_body kb' part st).
Qed.

Lemma segment_same part : segment kb part = segment kb' part.
Proof. unfold segment, scan. by rewrite same_known, while_loop_same. Qed.

Lemma for_parts_same parts : ∀ final_parts,
  for_parts kb parts final_parts = for_parts kb' parts final_parts.
Proof.
  induction parts as [|part parts IH]; intros acc; [done|]. cbn [for_parts].
  rewrite segment_same. case_bool_decide; [done|].
  destruct (segment kb' part); cbn; [apply IH|done].
Qed.

Lemma separate_words_enhanced_same text :
  separate_words_enhanced kb text = separate_words_enhanced kb' text.
Proof. unfold separate_words_enhanced. by rewrite for_parts_same. Qed.

End SameProbes.

(** X10: a word of the list that is not its own case-folded form is never
    found: the probes are case-folded, so the list without that word gives
    the same result for every text.  This is what the [lower()] of the
    loader is for. *)
Theorem unfolded_word_is_dead (kb : gset str) (w : str) (text : str) :
  lower w ≠ w →
  separate_words_enhanced (kb ∖ {[w]}) text = separate_words_enhanced kb text.
Proof.
  intros Hw. apply separate_words_enhanced_same. intros s. unfold known.
  apply bool_decide_ext. rewrite elem_of_difference, not_elem_of_singleton.
  split; [by intros [? _]|]. intros Hs. split; [done|].
  intros Heq. apply Hw. by rewrite <-Heq, lower_idemp.
Qed.

Lemma unfolded_word_is_dead_witness :
  separate_words_enhanced (words ["Gold"; "fish"]%string ∖ {[py "Gold"]})
    (py "goldfish")
  = separate_words_enhanced (words ["Gold"; "fish"]%string) (py "goldfish").
Proof. by apply unfolded_word_is_dead. Defined.

(** ** The size of the result *)

Lemma length_join_space (ws : list str) :
  ws ≠ [] → length (join_space ws) + 1 = length (concat ws) + length ws.
Proof.
  induction ws as [|w ws IH]; [done|]. intros _. destruct ws as [|w' ws].
  - cbn. rewrite app_nil_r. lia.
  - rewrite join_space_cons by done.
    change (concat (w :: w' :: ws)) with (w ++ concat (w' :: ws)).
    rewrite !length_app. cbn [length] in *. specialize (IH ltac:(done)). lia.
Qed.

Lemma length_concat_solid (ws : list str) :
  Forall solid ws → length ws ≤ length (concat ws).
Proof.
  induction 1 as [|w ws [Hw _] Hws IH]; [done|]. cbn. rewrite length_app.
  destruct w; [done|]. cbn. lia.
Qed.

Lemma length_strip s : length (strip s) ≤ length s.
Proof.
  destruct (strip_infix s) as (a & b & Hs). rewrite Hs at 2.
  rewrite !length_app. lia.
Qed.

(** X8: the empty text gives the empty result, and for a text that is
    not empty the result has at most one space for every character of the
    text that is left and one less in all: its length and one more are at
    most twice the length of the text, so that it is never longer than twice
    the text less one. *)
Theorem result_length_bound (kb : gset str) (text out : str) :
  separate_words_enhanced kb text = Some out →
  (text = [] → out = []) ∧
  (text ≠ [] → length out + 1 ≤ 2 * length text).
Proof.
  intros Hout.
  destruct (separate_words_enhanced_joined kb text)
    as (ws & Hws & Hsolid & Hcat).
  rewrite Hws in Hout. injection Hout as <-. split.
  { intros ->. cbn in Hcat. destruct ws as [|w ws]; [done|].
    apply Forall_cons in Hsolid as [[Hw _] _]. by destruct w. }
  intros Htext.
  assert (0 < length text) as Hpos by (destruct text; [done|cbn; lia]).
  destruct (decide (ws = [])) as [->|Hne]; [cbn; lia|].
  pose proof (length_join_space ws Hne) as Hlen.
  pose proof (length_concat_solid ws Hsolid) as Hws'.
  assert (length (concat ws) ≤ length text) as Hle.
  { rewrite Hcat, remove_spaces_cleaned.
    etrans; [apply length_filter|apply length_strip]. }
  lia.
Qed.

Lemma result_length_bound_witness :
  length (py "a B 1") + 1 ≤ 2 * length (py "aB1").
Proof.
  by apply (result_length_bound ∅ (py "aB1") (py "a B 1")).
Defined.

(** ** The words of the result in the text *)

Lemma piece_of_refl s : piece_of s s.
Proof. exists [], []. by rewrite app_nil_r. Qed.

Lemma piece_of_nil s : piece_of [] s.
Proof. by exists [], s. Qed.

Lemma piece_of_cons w c s : piece_of w s → piece_of w (c :: s).
Proof. intros (a & b & ->). by exists (c :: a), b. Qed.

Lemma piece_of_trans w t s : piece_of w t → piece_of t s → piece_of w s.
Proof.
  intros (a & b & ->) (a' & b' & ->). exists (a' ++ a), (b ++ b').
  by rewrite <-!app_assoc.
Qed.

Lemma piece_of_concat w (ws : list str) : w ∈ ws → piece_of w (concat ws).
Proof.
  induction 1 as [w ws|w w' ws Hw (a & b & IH)]; cbn [concat].
  - by exists [], (concat ws).
  - exists (w' ++ a), b. by rewrite IH, <-app_assoc.
Qed.

Lemma piece_of_join_space w (ws : list str) : w ∈ ws → piece_of w (join_space ws).
Proof.
  induction 1 as [w ws|w w' ws Hw (a & b & IH)].
  - destruct ws as [|v ws];
      [apply piece_of_refl|by exists [], (" " :: join_space (v :: ws))].
  - destruct ws as [|w'' ws]; [by apply elem_of_nil in Hw|].
    rewrite join_space_cons by done. exists (w' ++ " " :: a), b.
    by rewrite IH, <-app_assoc.
Qed.

(** A piece without spaces at the front of a text with spaces put in, or
    with runs of spaces cut down, is at the front of the text. *)
Lemma front_spaced w : ∀ s t b,
  " " ∉ w → spaced s t → t = w ++ b → ∃ b', s = w ++ b'.
Proof.
  induction w as [|c w IH]; intros s t b Hw Hst Ht; [by exists s|].
  apply not_elem_of_cons in Hw as [Hc Hw]. cbn [app] in Ht. subst t.
  inversion Hst as [|c' s' t' Hst'|s' t' Hst']; subst; [|done].
  destruct (IH s' (w ++ b) b Hw Hst' eq_refl) as [b' ->]. by exists b'.
Qed.

Lemma front_collapse_spaces w : ∀ s b,
  " " ∉ w → collapse_spaces s = w ++ b → ∃ b', s = w ++ b'.
Proof.
  induction w as [|c w IH]; intros s b Hw Hs; [by exists s|].
  apply not_elem_of_cons in Hw as [Hc Hw]. cbn [app] in Hs.
  destruct s as [|e [|e' s]]; [done| |].
  - injection Hs as -> Hs. destruct w; [by exists []|done].
  - rewrite collapse_spaces_cons in Hs.
    destruct (bool_decide_reflect (e = " ")) as [->|He]; cbn [andb] in Hs.
    + destruct (bool_decide_reflect (e' = " ")) as [->|He'].
      * pose proof (head_collapse_spaces (" " :: s)) as Hh.
        rewrite Hs in Hh. cbn in Hh. congruence.
      * by injection Hs as <- _.
    + injection Hs as -> Hs.
      destruct (IH (e' :: s) b Hw Hs) as [b' ->]. by exists b'.
Qed.

Lemma piece_of_spaced w s t :
  " " ∉ w → spaced s t → piece_of w t → piece_of w s.
Proof.
  intros Hw Hst (a & b & Ht). revert a Ht.
  induction Hst as [|c s t Hst IH|s t Hst IH]; intros a Ht.
  - destruct a, w; try done. apply piece_of_nil.
  - destruct a as [|c' a]; cbn [app] in Ht.
    + destruct (front_spaced w (c :: s) (c :: t) b Hw) as [b' ->];
        [by constructor|done|]. by exists [], b'.
    + injection Ht as -> Ht. by apply piece_of_cons, (IH a).
  - destruct a as [|c' a]; cbn [app] in Ht.
    + destruct w as [|c w]; [apply piece_of_nil|].
      injection Ht as <- _. by apply not_elem_of_cons in Hw as [? _].
    + injection Ht as _ Ht. by apply (IH a).
Qed.

Lemma piece_of_collapse_spaces w s :
  " " ∉ w → piece_of w (collapse_spaces s) → piece_of w s.
Proof.
  intros Hw (a & b & Hs). revert a Hs.
  induction s as [|c s IH]; intros a Hs.
  { destruct a, w; try done. apply piece_of_nil. }
  destruct a as [|c' a]; cbn [app] in Hs.
  { destruct (front_collapse_spaces w (c :: s) b Hw Hs) as [b' ->].
    by exists [], b'. }
  destruct s as [|c'' s].
  { injection Hs as -> Hs. destruct a, w; try done. apply piece_of_nil. }
  rewrite collapse_spaces_cons in Hs.
  destruct (_ && _).
  - by apply piece_of_cons, (IH (c' :: a)).
  - injection Hs as -> Hs. by apply piece_of_cons, (IH a).
Qed.

Lemma piece_of_cleaned w text :
  " " ∉ w → piece_of w (cleaned text) → piece_of w text.
Proof.
  intros Hw Hpiece. unfold cleaned in Hpiece.
  assert (spaced text (temp_processed text)) as Hsp.
  { unfold temp_processed, sub_digit_alpha, sub_alpha_digit, sub_acronym,
      sub_lower_upper.
    repeat (eapply spaced_trans; [|apply spaced_sub_lookaround]).
    apply spaced_refl. }
  apply (piece_of_spaced w _ _ Hw Hsp).
  apply piece_of_collapse_spaces; [done|].
  eapply piece_of_trans; [done|].
  destruct (strip_infix (collapse_spaces (temp_processed text))) as (a & b & Hs).
  by exists a, b.
Qed.

(** X9: every word of the result stands in the text as it is, as a
    contiguous piece: no word is put together across a space of the text,
    and no character of a word is changed. *)
Theorem result_words_are_pieces_of_text (kb : gset str) (text : str) :
  ∃ ws, separate_words_enhanced kb text = Some (join_space ws) ∧
        Forall (λ w, solid w ∧ piece_of w text) ws.
Proof.
  destruct (separate_words_enhanced_tokens kb text)
    as (segss & Hall & Hout & Hsolid & _).
  exists (concat segss). split; [done|].
  assert (Forall (λ w, piece_of w (cleaned text)) (concat segss)) as Hpieces.
  { assert (Forall (λ t, piece_of t (cleaned text)) (split_boundaries text)) as Ht.
    { rewrite <-split_boundaries_join. apply Forall_forall.
      intros t Ht. by apply piece_of_join_space. }
    clear Hout Hsolid.
    induction Hall as [|t segs ts segss Hseg Hall IH]; [constructor|].
    apply Forall_cons in Ht as [Ht Hts]. cbn [concat].
    apply Forall_app. split; [|by apply IH].
    destruct (segment_total kb t) as (segs' & Hseg' & Hcat & _).
    assert (segs' = segs) as -> by congruence.
    apply Forall_forall. intros w Hw.
    apply (piece_of_trans _ t); [|done]. rewrite <-Hcat.
    by apply piece_of_concat. }
  rewrite Forall_forall in Hsolid, Hpieces. apply Forall_forall.
  intros w Hw. destruct (Hsolid w Hw) as [Hne Hsp].
  split; [done|]. by apply piece_of_cleaned, Hpieces.
Qed.

(** ** The test of line 94 *)

(** X14: the test [len(sub) > len(best_match_word)] of line 94 never
    fails: whenever a probe is a known word it is longer than the best found
    so far at that position, and takes its place.  The word found last is
    the one kept. *)
Theorem later_hit_always_wins (kb : gset str) (part : str) (pos n : nat) :
  pos + n < length part →
  lower (slice part pos (pos + n + 1)) ∈ kb →
  probe kb part pos
    (foldl (probe kb part pos) (BestMatch None []) (seq pos n)) (pos + n)
  = BestMatch (Some (pos + n + 1)) (slice part pos (pos + n + 1)).
Proof.
  intros Hn Hknown%known_spec.
  pose proof (foldl_probe_longest_upto kb part pos n ltac:(lia)) as Hbest.
  unfold probe at 1. rewrite Hknown, bool_decide_eq_true_2; [done|].
  rewrite length_slice by lia. unfold longest_upto in Hbest.
  destruct (best_match_end _) as [e|].
  - destruct Hbest as (He & -> & _). rewrite length_slice by lia. lia.
  - destruct Hbest as [-> _]. cbn. lia.
Qed.

Lemma later_hit_always_wins_witness :
  probe (words ["the"; "them"]%string) (py "them") 0
    (foldl (probe (words ["the"; "them"]%string) (py "them") 0)
       (BestMatch None []) (seq 0 3)) 3
  = BestMatch (Some 4) (py "them").
Proof.
  apply (later_hit_always_wins (words ["the"; "them"]%string) (py "them") 0 3).
  - cbn. lia.
  - by_evaluation.
Defined.
